(** * Weather dashboard: seasonal baselines and the two-sigma rule

    A shallow embedding of the computational core of [app.py]:
    - [get_current_season], the month to season table;
    - [check_temperature_normality], the classification of a live reading;
    - the data pipeline of [main]: the rows of the selected city, the
      per-season table [city_stats] (pandas [groupby/agg]) and the boolean
      series [anomalies] (pandas [groupby/transform] and vectorised
      comparisons).

    Temperatures are IEEE 754 binary64 numbers, as in Python and pandas:
    they are Rocq's primitive floats, whose operations are specified by
    [SpecFloat] (a comparison with NaN is false, an operation on NaN is
    NaN).  A DataFrame is the list of its rows, a Series the list of its
    values in row order. *)

Set Warnings "-notation-overridden,-notation-incompatible-prefix".
From Stdlib Require Import ZArith String Floats Lia.
From HB Require Import structures.
From mathcomp Require Import boot.
Set Warnings "-rewrite-rw".

Set Implicit Arguments.
Unset Strict Implicit.
Unset Printing Implicit Defensive.

(** Column values compared with [==] in the source: strings (city and
    season labels) and integers (months). *)
HB.instance Definition _ := hasDecEq.Build string String.eqb_spec.
HB.instance Definition _ := hasDecEq.Build Z Z.eqb_spec.

(** ** Python results *)

(** The only exception the modelled code can raise is the [IndexError] of
    [.iloc[0]] on an empty selection. *)
Inductive exception : Type := IndexError.

Inductive result (A : Type) : Type :=
| Ok (a : A)
| Raise (e : exception).
Arguments Ok {A} a.
Arguments Raise {A} e.

Definition bind {A B : Type} (r : result A) (k : A -> result B) : result B :=
  match r with
  | Ok a => k a
  | Raise e => Raise e
  end.

(** ** [get_current_season]

    The source reads [datetime.now().month]; the month is an argument
    here.  The branches are those of the source, in order; the last one
    is an unguarded [else]. *)
Definition get_current_season (month : Z) : string :=
  if month \in [:: 12; 1; 2]%Z then "winter"%string
  else if month \in [:: 3; 4; 5]%Z then "spring"%string
  else if month \in [:: 6; 7; 8]%Z then "summer"%string
  else "fall"%string.

(** ** The historical dataset *)

(** A row of the uploaded CSV after [load_data]: the [timestamp] column
    holds parsed datetimes (nanoseconds since the epoch). *)
Record observation : Type := Observation {
  city : string;
  timestamp : Z;
  temperature : float;
  season : string
}.

Definition dataframe : Type := seq observation.

(** ** Series of floats *)

Definition series : Type := seq float.

(** pandas [notna] on a float: NaN is the only float different from
    itself. *)
Definition notna (x : float) : bool := (x =? x)%float.

Definition dropna (s : series) : series := [seq x <- s | notna x].

(** Left-to-right sum, starting from [0.0]. *)
Definition fsum (s : series) : float := foldl PrimFloat.add 0%float s.

(** A count as a float. *)
Definition float_of_nat (n : nat) : float :=
  PrimFloat.of_uint63 (Uint63.of_Z (Z.of_nat n)).

Definition average (v : series) : float :=
  (fsum v / float_of_nat (size v))%float.

Definition squared_deviations (m : float) (v : series) : series :=
  [seq ((x - m) * (x - m))%float | x <- v].

Definition sample_std (v : series) : float :=
  PrimFloat.sqrt
    (fsum (squared_deviations (average v) v) / float_of_nat (size v - 1))%float.

(** Modelled from the spec: the pandas reductions ["mean"] and ["std"] are
    library code outside the repository.  They skip missing values; the mean
    of no value is NaN; the standard deviation is the sample one
    (divisor [count - 1]) and is NaN for fewer than two values. *)
Definition series_mean (s : series) : float :=
  let v := dropna s in
  if v is [::] then nan else average v.

Definition series_std (s : series) : float :=
  let v := dropna s in
  if size v <= 1 then nan else sample_std v.

(** Element-wise operations on series that share their index. *)
Definition series_map2 {A B C : Type} (f : A -> B -> C)
    (a : seq A) (b : seq B) : seq C :=
  [seq f p.1 p.2 | p <- zip a b].

(** ** [groupby("season")["temperature"]] *)

(** The group keys: the distinct season labels, sorted. *)
Definition group_keys (d : dataframe) : seq string :=
  sort String.leb (undup [seq season r | r <- d]).

(** The temperatures of one group, in row order. *)
Definition group_temperature (d : dataframe) (k : string) : series :=
  [seq temperature r | r <- d & season r == k].

(** A row of [.agg(["mean", "std"]).reset_index()]. *)
Module Stats.
Record row : Type := Row {
  season : string;
  mean : float;
  std : float
}.
End Stats.

Definition groupby_agg (d : dataframe) : seq Stats.row :=
  [seq Stats.Row k (series_mean (group_temperature d k))
                   (series_std (group_temperature d k))
  | k <- group_keys d].

(** [.transform(f)]: every row receives the reduction of its own group. *)
Definition groupby_transform (f : series -> float) (d : dataframe) : series :=
  [seq f (group_temperature d (season r)) | r <- d].

(** ** [check_temperature_normality] *)

(** [city_stats[city_stats["season"] == season]] *)
Definition select_season (city_stats : seq Stats.row) (s : string)
    : seq Stats.row :=
  [seq r <- city_stats | Stats.season r == s].

(** [.iloc[0]] *)
Definition iloc0 {A : Type} (s : seq A) : result A :=
  if s is x :: _ then Ok x else Raise IndexError.

Definition check_temperature_normality (month : Z) (temp : float)
    (city_stats : seq Stats.row) : result (bool * float * float) :=
  let season := get_current_season month in
  bind (iloc0 (select_season city_stats season)) (fun stats =>
  let mean := Stats.mean stats in
  let std := Stats.std stats in
  let is_normal :=
    ((mean - 2 * std <=? temp) && (temp <=? mean + 2 * std))%float in
  Ok (is_normal, mean, std)).

(** The baseline of a season in a table of seasonal statistics: the row
    the classifier would read, if there is one. *)
Definition baseline (city_stats : seq Stats.row) (s : string)
    : option Stats.row :=
  ohead (select_season city_stats s).

(** ** The pipeline of [main] *)

Definition cities (df : dataframe) : seq string :=
  sort String.leb (undup [seq city r | r <- df]).

Definition city_data (df : dataframe) (selected_city : string) : dataframe :=
  [seq r <- df | city r == selected_city].

Definition city_stats (df : dataframe) (selected_city : string)
    : seq Stats.row :=
  groupby_agg (city_data df selected_city).

(** The per-row statistics used for the historical chart. *)
Definition transform_mean (df : dataframe) (selected_city : string) : series :=
  groupby_transform series_mean (city_data df selected_city).

Definition transform_std (df : dataframe) (selected_city : string) : series :=
  groupby_transform series_std (city_data df selected_city).

Definition anomalies (df : dataframe) (selected_city : string) : seq bool :=
  let temperature := [seq temperature r | r <- city_data df selected_city] in
  let mean := transform_mean df selected_city in
  let std := transform_std df selected_city in
  let two_std := [seq (2 * x)%float | x <- std] in
  let lower := series_map2 PrimFloat.sub mean two_std in
  let upper := series_map2 PrimFloat.add mean two_std in
  series_map2 orb
    (series_map2 PrimFloat.ltb temperature lower)
    (series_map2 (fun t u => PrimFloat.ltb u t) temperature upper).

(** ** Notions used to state the properties *)

(** The anomaly mask seen row by row: the flag of a row [r] of the frame
    [d], computed from the statistics of the season group of [r]. *)
Definition flagged (d : dataframe) (r : observation) : bool :=
  let m := series_mean (group_temperature d (season r)) in
  let sd := series_std (group_temperature d (season r)) in
  ((temperature r <? m - 2 * sd) || (m + 2 * sd <? temperature r))%float.

(** The temperatures recorded for a city in a season, in dataset order. *)
Definition season_temperatures (df : dataframe) (c s : string) : series :=
  [seq temperature r | r <- df & (city r == c) && (season r == s)].

(** A row to read out of range positions with [nth]. *)
Definition no_observation : observation :=
  Observation EmptyString 0 nan EmptyString.

(** A small dataset: four summer days in Berlin (the scenario of the
    specification), one winter day in Berlin, one summer day in Paris. *)
Definition example_df : dataframe :=
  [:: Observation "Berlin" 1 20 "summer";
      Observation "Berlin" 2 22 "summer";
      Observation "Paris" 3 30 "summer";
      Observation "Berlin" 4 18 "summer";
      Observation "Berlin" 5 50 "summer";
      Observation "Berlin" 6 (-1) "winter"].


(** ** Rounding to binary64, as [SpecFloat] does it *)

(** Round to nearest, ties to even, of [m / 2 ^ n] for [n >= 1]: [h] counts
    the half units below [m], [t] is what is left below the last one. *)
Definition rne (m n : Z) : Z :=
  let h := (m / 2 ^ (n - 1))%Z in
  let t := (m mod 2 ^ (n - 1))%Z in
  let q := (h / 2)%Z in
  if Z.odd h && (~~ (t =? 0)%Z || Z.odd q) then (q + 1)%Z else q.

(** The outcome of a rounding: a finite float, or an infinity when the
    exponent is out of range. *)
Definition fin_or_inf (s : bool) (m : positive) (e : Z) : spec_float :=
  if (e <=? emax - prec)%Z then S754_finite s m e else S754_infinity s.

(** A positive rounding result as a key: nothing for zero, otherwise the
    exponent and the mantissa, which [SFcompare] reads in that order. *)
Definition of_key (s : bool) (k : option (Z * positive)) : spec_float :=
  match k with
  | None => S754_zero s
  | Some (e, m) => fin_or_inf s m e
  end.

(** The order of the keys: by exponent, then by mantissa. *)
Definition key_le (k k' : option (Z * positive)) : Prop :=
  match k, k' with
  | None, _ => True
  | Some _, None => False
  | Some (e, m), Some (e', m') => (e < e')%Z \/ (e = e' /\ (m <= m')%positive)
  end.

(** The key of a mantissa [m1] rounded at exponent [fe]: a carry out of
    the 53 bits moves to the next exponent. *)
Definition carry_key (m1 fe : Z) : option (Z * positive) :=
  if (m1 =? 0)%Z then None
  else if (m1 =? 2 ^ 53)%Z then Some ((fe + 1)%Z, (2 ^ 52)%positive)
  else Some (fe, Z.to_pos m1).

(** The key of [m * 2 ^ e] rounded to binary64: exact when the target
    exponent [fe] is not above [e], rounded to nearest even otherwise. *)
Definition round_key (m : positive) (e : Z) : option (Z * positive) :=
  let fe := fexp prec emax (Z.pos (digits2_pos m) + e) in
  if (fe <=? e)%Z then Some (fe, Z.to_pos (Z.pos m * 2 ^ (e - fe)))
  else carry_key (rne (Z.pos m) (fe - e)) fe.

(** Zero, a positive finite number or [+oo]. *)
Definition nonneg (d : spec_float) : bool :=
  match d with
  | S754_zero _ | S754_infinity false | S754_finite false _ _ => true
  | _ => false
  end.

(** Neither NaN nor an infinity. *)
Definition finite_sf (x : spec_float) : bool :=
  match x with
  | S754_zero _ | S754_finite _ _ _ => true
  | _ => false
  end.


(** ** The temperature chart of [main] *)

(** A chart trace: the [x] and [y] columns handed to [go.Scatter], row by
    row. *)
Definition trace : Type := seq (Z * float).

(** [d[m]]: the rows of [d] at which the boolean series [m], which has the
    index of [d], holds [True]. *)
Definition select_rows (m : seq bool) (d : dataframe) : dataframe :=
  mask m d.

(** The columns ["timestamp"] and ["temperature"] of a frame. *)
Definition points (d : dataframe) : trace :=
  [seq (timestamp r, temperature r) | r <- d].

(** The line of normal temperatures, [city_data[~anomalies]]. *)
Definition normal_trace (df : dataframe) (selected_city : string) : trace :=
  let city_data := city_data df selected_city in
  let anomalies := anomalies df selected_city in
  points (select_rows [seq ~~ a | a <- anomalies] city_data).

(** The red markers, [city_data[anomalies]]. *)
Definition anomaly_trace (df : dataframe) (selected_city : string) : trace :=
  let city_data := city_data df selected_city in
  let anomalies := anomalies df selected_city in
  points (select_rows anomalies city_data).

(** ** The live section of [main] ("Текущая погода")

    The section is the last block of [main]; it runs once the charts above
    it have been drawn. *)

(** What the weather call leaves behind: it raised, it returned [None]
    (having reported the response itself), or it returned the temperature
    of the response, a number. *)
Inductive fetched : Type :=
| Fetch_raised
| Fetch_none
| Fetch_temp (current_temp : float).

(** The exception that reaches [except Exception as e]: one of the weather
    call, or one of the classification. *)
Inductive caught : Type :=
| From_fetch
| From_check (e : exception).

(** The calls to [st.write], [st.error] and [st.info] of the section; each
    constructor stands for one formatted text and carries the values that
    the text shows. *)
Inductive message : Type :=
| Write_temperature (city : string) (current_temp : float)
| Write_call_time (execution_time : float)
| Write_status (status : string)
| Write_season_mean (mean two_std : float)
| Error_fetching (e : caught)
| Info_enter_key.

(** The block under [st.subheader("Текущая погода")].  The outcome of the
    weather call and the measured time are arguments. *)
Definition live_section (api_key : string) (call : fetched)
    (execution_time : float) (selected_city : string) (month : Z)
    (city_stats : seq Stats.row) : seq message :=
  if api_key is EmptyString then [:: Info_enter_key]
  else
    match call with
    | Fetch_raised => [:: Error_fetching From_fetch]
    | Fetch_none => [::]
    | Fetch_temp current_temp =>
      [:: Write_temperature selected_city current_temp;
          Write_call_time execution_time] ++
      match check_temperature_normality month current_temp city_stats with
      | Ok (is_normal, mean, std) =>
        let status :=
          (if is_normal then "нормальная" else "аномальная")%string in
        [:: Write_status status; Write_season_mean mean (2 * std)%float]
      | Raise e => [:: Error_fetching (From_check e)]
      end
    end.

(** The messages that state a verdict, and those that report an error. *)
Definition is_status (m : message) : bool :=
  if m is Write_status _ then true else false.

Definition is_error (m : message) : bool :=
  if m is Error_fetching _ then true else false.

(** * Facts about binary64 *)

Section Binary64.

Local Open Scope float_scope.

Lemma SFeqb_irrefl_nan (x : spec_float) : SFeqb x x = false -> x = S754_nan.
Proof.
case: x => [s|s||s m e] //=; rewrite /SFeqb /=.
- by case: s.
- by case: s; rewrite Z.compare_refl Pos.compare_cont_refl.
Qed.

Lemma is_nan_eq (x : float) : is_nan x -> x = nan.
Proof.
rewrite /is_nan eqb_spec => /negbTE /SFeqb_irrefl_nan E.
by apply: Prim2SF_inj; rewrite E.
Qed.

Lemma mul_nan_r (x : float) : x * nan = nan.
Proof.
apply: Prim2SF_inj; rewrite mul_spec.
by change (Prim2SF nan) with S754_nan; case: (Prim2SF x).
Qed.

Lemma sub_nan_r (x : float) : x - nan = nan.
Proof.
apply: Prim2SF_inj; rewrite sub_spec.
by change (Prim2SF nan) with S754_nan; case: (Prim2SF x).
Qed.

Lemma add_nan_r (x : float) : x + nan = nan.
Proof.
apply: Prim2SF_inj; rewrite add_spec.
by change (Prim2SF nan) with S754_nan; case: (Prim2SF x).
Qed.

Lemma ltb_nan_r (x : float) : (x <? nan) = false.
Proof.
rewrite ltb_spec; change (Prim2SF nan) with S754_nan.
by rewrite /SFltb; case: (Prim2SF x).
Qed.

Lemma ltb_nan_l (x : float) : (nan <? x) = false.
Proof. by rewrite ltb_spec; change (Prim2SF nan) with S754_nan. Qed.

Lemma leb_nan_l (x : float) : (nan <=? x) = false.
Proof. by rewrite leb_spec; change (Prim2SF nan) with S754_nan. Qed.

Lemma leb_nan_r (x : float) : (x <=? nan) = false.
Proof.
rewrite leb_spec; change (Prim2SF nan) with S754_nan.
by rewrite /SFleb; case: (Prim2SF x).
Qed.

End Binary64.

(** * The data pipeline *)

Section Pipeline.

Implicit Types (d df : dataframe) (c k s : string) (f : series -> float).
Implicit Types (r : observation) (i : nat).

(** ** Element-wise operations *)

Lemma series_map2_map (A B C I : Type) (op : A -> B -> C)
    (g : I -> A) (h : I -> B) (s : seq I) :
  series_map2 op [seq g x | x <- s] [seq h x | x <- s] =
  [seq op (g x) (h x) | x <- s].
Proof. by rewrite /series_map2 zip_map -map_comp. Qed.

(** ** Groups *)

Lemma group_keysE d k : (k \in group_keys d) = (k \in [seq season r | r <- d]).
Proof. by rewrite /group_keys mem_sort mem_undup. Qed.

Lemma group_keys_uniq d : uniq (group_keys d).
Proof. by rewrite /group_keys sort_uniq undup_uniq. Qed.

Lemma select_season_groupby_agg d k :
  select_season (groupby_agg d) k =
  [seq Stats.Row k' (series_mean (group_temperature d k'))
                    (series_std (group_temperature d k'))
  | k' <- group_keys d & k' == k].
Proof. by rewrite /select_season /groupby_agg filter_map. Qed.

Lemma baseline_groupby_agg d k :
  k \in [seq season r | r <- d] ->
  baseline (groupby_agg d) k =
  Some (Stats.Row k (series_mean (group_temperature d k))
                    (series_std (group_temperature d k))).
Proof.
rewrite -group_keysE /baseline select_season_groupby_agg => kd.
have -> : [seq k' <- group_keys d | k' == k] = [:: k].
  by rewrite -(filter_pred1_uniq (group_keys_uniq d) kd).
by [].
Qed.

Lemma select_season_absent d k :
  k \notin [seq season r | r <- d] -> select_season (groupby_agg d) k = [::].
Proof.
rewrite -group_keysE select_season_groupby_agg => kd.
have -> // : [seq k' <- group_keys d | k' == k] = [::].
apply/eqP; rewrite -[_ == _]negbK -has_filter.
by apply: contra kd => /hasP [k' k'd /eqP <-].
Qed.

Lemma season_nth_mem d r0 i :
  i < size d -> season (nth r0 d i) \in [seq season r | r <- d].
Proof. by move=> id; rewrite map_nth mem_nth // size_map. Qed.

Lemma has_season_mem d s :
  has (fun r => season r == s) d = (s \in [seq season r | r <- d]).
Proof. by elim: d => //= r d ->; rewrite in_cons eq_sym. Qed.

Lemma has_city_mem df c :
  has (fun r => city r == c) df = (c \in [seq city r | r <- df]).
Proof. by elim: df => //= r d ->; rewrite in_cons eq_sym. Qed.

Lemma nth_groupby_transform f d r0 (x0 : float) i :
  i < size d ->
  nth x0 (groupby_transform f d) i =
  f (group_temperature d (season (nth r0 d i))).
Proof. by move=> id; rewrite /groupby_transform (nth_map r0). Qed.

(** ** The rows of the selected city *)

Lemma group_temperature_city_data df c s :
  group_temperature (city_data df c) s = season_temperatures df c s.
Proof.
rewrite /group_temperature /city_data /season_temperatures -filter_predI.
by congr map; apply: eq_filter => r /=; rewrite andbC.
Qed.

Lemma season_temperatures_mem df c s :
  0 < size (season_temperatures df c s) ->
  s \in [seq season r | r <- city_data df c].
Proof.
rewrite -group_temperature_city_data size_map size_filter_gt0.
by rewrite has_season_mem.
Qed.

Lemma city_data_absent df c :
  c \notin [seq city r | r <- df] -> city_data df c = [::].
Proof.
elim: df => //= r df IH; rewrite in_cons negb_or eq_sym.
by case/andP => /negbTE -> /IH.
Qed.

(** ** The anomaly mask *)

Lemma anomaliesE df c :
  anomalies df c = [seq flagged (city_data df c) r | r <- city_data df c].
Proof.
rewrite /anomalies /transform_mean /transform_std /groupby_transform.
by rewrite -map_comp !series_map2_map.
Qed.

Lemma size_anomalies df c : size (anomalies df c) = size (city_data df c).
Proof. by rewrite anomaliesE size_map. Qed.

Lemma nth_anomalies df c r0 (b0 : bool) i :
  i < size (city_data df c) ->
  nth b0 (anomalies df c) i = flagged (city_data df c) (nth r0 (city_data df c) i).
Proof. by move=> id; rewrite anomaliesE (nth_map r0). Qed.

End Pipeline.

(** * Properties of the historical analysis *)

Section Historical.

Local Open Scope float_scope.

Implicit Types (df : dataframe) (c s : string) (r : observation) (i : nat).

(** C10: the two computations of the seasonal statistics agree.  For every
    row of the selected city's data, the mean and the standard deviation
    that [groupby/transform] puts on the row are the ones stored, for the
    season of the row, in the [groupby/agg] table read by the live
    classification. *)
Theorem transform_agrees_with_agg df c r0 i :
  (i < size (city_data df c))%N ->
  baseline (city_stats df c) (season (nth r0 (city_data df c) i)) =
  Some (Stats.Row (season (nth r0 (city_data df c) i))
          (nth 0 (transform_mean df c) i) (nth 0 (transform_std df c) i)).
Proof.
move=> id; rewrite /city_stats baseline_groupby_agg ?season_nth_mem //.
by rewrite /transform_mean /transform_std !(nth_groupby_transform _ r0).
Qed.

Lemma transform_agrees_with_agg_witness :
  (4 < size (city_data example_df "Berlin"))%N /\
  baseline (city_stats example_df "Berlin")
    (season (nth no_observation (city_data example_df "Berlin") 4)) =
  Some (Stats.Row (season (nth no_observation (city_data example_df "Berlin") 4))
          (nth 0 (transform_mean example_df "Berlin") 4)
          (nth 0 (transform_std example_df "Berlin") 4)).
Proof.
split; first by vm_compute.
by apply: transform_agrees_with_agg; vm_compute.
Defined.

(** C1: the two-sigma rule.  Every row of the selected city's data has a
    baseline for its season in [city_stats], and the row is flagged in
    [anomalies] exactly when its temperature is below [mean - 2 * std] or
    above [mean + 2 * std] for that baseline.  (The equation needs no
    assumption on [std]: when it is NaN both comparisons are false.) *)
Theorem anomalies_two_sigma df c r0 i :
  (i < size (city_data df c))%N ->
  let r := nth r0 (city_data df c) i in
  exists b : Stats.row,
    baseline (city_stats df c) (season r) = Some b /\
    (is_nan (Stats.std b) = false ->
     nth false (anomalies df c) i =
     (temperature r <? Stats.mean b - 2 * Stats.std b) ||
     (Stats.mean b + 2 * Stats.std b <? temperature r)).
Proof.
move=> id r; rewrite /city_stats baseline_groupby_agg ?season_nth_mem //.
by eexists; split=> // _; rewrite (@nth_anomalies _ _ r0).
Qed.

Lemma anomalies_two_sigma_witness :
  (0 < size (city_data example_df "Berlin"))%N /\
  exists b : Stats.row,
    baseline (city_stats example_df "Berlin") "summer" = Some b /\
    (is_nan (Stats.std b) = false ->
     nth false (anomalies example_df "Berlin") 0 =
     (20 <? Stats.mean b - 2 * Stats.std b) ||
     (Stats.mean b + 2 * Stats.std b <? 20)).
Proof.
split; first by vm_compute.
exact: (@anomalies_two_sigma example_df "Berlin" no_observation 0 isT).
Defined.

(** A row whose group statistics have a NaN standard deviation is not
    flagged. *)
Lemma flagged_nan_std (d : dataframe) r :
  is_nan (series_std (group_temperature d (season r))) -> flagged d r = false.
Proof.
rewrite /flagged => /is_nan_eq ->.
by rewrite mul_nan_r sub_nan_r add_nan_r ltb_nan_r ltb_nan_l.
Qed.

(** A group of one row has no sample standard deviation. *)
Lemma series_std_singleton (v : series) : size v = 1%N -> series_std v = nan.
Proof.
case: v => [|x [|y v]] //= _.
by rewrite /series_std /dropna /=; case: (notna x).
Qed.

(** C6: the default of the historical analysis.  A row whose season has no
    baseline in [city_stats], or a baseline with a NaN standard deviation
    (in particular a season with a single observation of the city), gets a
    flag, and the flag says "not anomalous": the mask is computed for every
    row and no error is involved. *)
Theorem anomalies_default_normal df c r0 i :
  (i < size (city_data df c))%N ->
  let r := nth r0 (city_data df c) i in
  baseline (city_stats df c) (season r) = None \/
  (exists b : Stats.row,
     baseline (city_stats df c) (season r) = Some b /\
     is_nan (Stats.std b)) \/
  size (season_temperatures df c (season r)) = 1%N ->
  (i < size (anomalies df c))%N /\ nth true (anomalies df c) i = false.
Proof.
move=> id r; rewrite size_anomalies (@nth_anomalies _ _ r0) // -/r.
rewrite /city_stats baseline_groupby_agg ?season_nth_mem // => H; split=> //.
case: H => [//|[[b [[<-] /= sd_nan]]|one]]; apply: flagged_nan_std => //.
by rewrite group_temperature_city_data series_std_singleton.
Qed.

Lemma anomalies_default_normal_witness :
  (4 < size (city_data example_df "Berlin"))%N /\
  (4 < size (anomalies example_df "Berlin"))%N /\
  nth true (anomalies example_df "Berlin") 4 = false.
Proof.
split; first by vm_compute.
apply: (@anomalies_default_normal example_df "Berlin" no_observation 4 isT).
by right; right; vm_compute.
Defined.

(** C2: the seasonal baseline.  With [v] the temperatures recorded for the
    city in the season: when there are at least two of them (none missing),
    the row of [city_stats] for the season holds their arithmetic average
    [sum v / n] and their sample standard deviation
    [sqrt (sum ((x - average)^2) / (n - 1))]; when there is exactly one, the
    season has a row and its standard deviation is NaN, not zero. *)
Theorem city_stats_mean_std df c s :
  let v := season_temperatures df c s in
  ((2 <= size v)%N -> all notna v ->
   exists b : Stats.row,
     [/\ baseline (city_stats df c) s = Some b,
         Stats.mean b = fsum v / float_of_nat (size v) &
         Stats.std b =
         sqrt (fsum [seq (x - Stats.mean b) * (x - Stats.mean b) | x <- v]
               / float_of_nat (size v - 1))]) /\
  (size v = 1%N ->
   exists b : Stats.row,
     [/\ baseline (city_stats df c) s = Some b,
         Stats.std b = nan & (Stats.std b =? 0) = false]).
Proof.
move=> v; split=> [v2 vna|v1].
- have sd : s \in [seq season r | r <- city_data df c].
    by apply: season_temperatures_mem; apply: leq_trans v2.
  rewrite /city_stats baseline_groupby_agg // group_temperature_city_data -/v.
  eexists; split=> //=.
  + by rewrite /series_mean /dropna (all_filterP vna); case: (v) v2.
  + rewrite /series_std /series_mean /dropna (all_filterP vna) leqNgt v2 /=.
    by case: (v) v2.
- have sd : s \in [seq season r | r <- city_data df c].
    by apply: season_temperatures_mem; rewrite -/v v1.
  rewrite /city_stats baseline_groupby_agg // group_temperature_city_data -/v.
  by eexists; split=> //=; rewrite series_std_singleton.
Qed.

Lemma city_stats_mean_std_witness :
  let v := season_temperatures example_df "Berlin" "summer" in
  let w := season_temperatures example_df "Berlin" "winter" in
  [/\ (2 <= size v)%N, all notna v,
   exists b : Stats.row,
     [/\ baseline (city_stats example_df "Berlin") "summer" = Some b,
         Stats.mean b = fsum v / float_of_nat (size v) &
         Stats.std b =
         sqrt (fsum [seq (x - Stats.mean b) * (x - Stats.mean b) | x <- v]
               / float_of_nat (size v - 1))],
   size w = 1%N &
   exists b : Stats.row,
     [/\ baseline (city_stats example_df "Berlin") "winter" = Some b,
         Stats.std b = nan & (Stats.std b =? 0) = false]].
Proof.
split; [by vm_compute | by vm_compute | | by vm_compute |].
- by apply: (proj1 (city_stats_mean_std example_df "Berlin" "summer")); vm_compute.
- by apply: (proj2 (city_stats_mean_std example_df "Berlin" "winter")); vm_compute.
Defined.

End Historical.

(** * Cities without data *)

Section UnknownCity.

Implicit Types (df : dataframe) (c s : string).

Lemma cities_mem df c : (c \in cities df) = (c \in [seq city r | r <- df]).
Proof. by rewrite /cities mem_sort mem_undup. Qed.

Lemma size_city_stats df c :
  size (city_stats df c) = size (group_keys (city_data df c)).
Proof. by rewrite /city_stats /groupby_agg size_map. Qed.

Lemma group_keys_nil (d : dataframe) : (group_keys d == [::]) = (size d == 0)%N.
Proof.
case: d => [|r d] //=; apply/negbTE/eqP => keys0.
by have := @season_nth_mem (r :: d) r 0%N isT; rewrite -group_keysE keys0.
Qed.

(** The cities offered for selection are those with a non-empty table of
    seasonal statistics. *)
Lemma cities_city_stats df c : (c \in cities df) = (0 < size (city_stats df c))%N.
Proof.
rewrite cities_mem size_city_stats lt0n -has_city_mem -size_filter_gt0 lt0n.
by rewrite -/(city_data df c) -group_keys_nil size_eq0.
Qed.

(** C9, as the code has it: for a city without any observation in the
    dataset, the computation of the seasonal baselines raises nothing; it
    returns the empty table (and the anomaly mask is empty too). *)
Theorem city_stats_unknown_city df c :
  c \notin [seq city r | r <- df] ->
  city_stats df c = [::] /\ anomalies df c = [::].
Proof.
move=> /city_data_absent cd0.
by rewrite anomaliesE /city_stats cd0.
Qed.

Lemma city_stats_unknown_city_witness :
  "Rome"%string \notin [seq city r | r <- example_df] /\
  city_stats example_df "Rome" = [::] /\ anomalies example_df "Rome" = [::].
Proof.
split; first by vm_compute.
by apply: city_stats_unknown_city; vm_compute.
Defined.

(** C9, as the claim has it, fails: the lookup of a city that the dataset
    does not mention yields a table, the empty one, where the claim expects
    an [UnknownCity] error. *)
Lemma city_stats_unknown_city_counterexample :
  "Rome"%string \notin [seq city r | r <- example_df] /\
  city_stats example_df "Rome" = [::].
Proof. by vm_compute. Qed.

End UnknownCity.

(** * The season table *)

Section Seasons.

Local Open Scope Z_scope.

(** C7: the month to season table, for the twelve months.  Each season is
    returned for its three months and for no other month. *)
Theorem season_table (m : Z) :
  1 <= m <= 12 ->
  [/\ get_current_season m = "winter"%string <-> m \in [:: 12; 1; 2],
      get_current_season m = "spring"%string <-> m \in [:: 3; 4; 5],
      get_current_season m = "summer"%string <-> m \in [:: 6; 7; 8] &
      get_current_season m = "fall"%string <-> m \in [:: 9; 10; 11]].
Proof.
move=> m12.
have : m \in [:: 1; 2; 3; 4; 5; 6; 7; 8; 9; 10; 11; 12].
  rewrite !inE; do 11 (case: eqP => //= ?).
  by apply/eqP; lia.
by rewrite !inE; do 11 (case/predU1P=> [->|]; first by split); move/eqP->; split.
Qed.

Lemma season_table_witness :
  1 <= 12 <= 12 /\
  [/\ get_current_season 12 = "winter"%string <-> 12 \in [:: 12; 1; 2],
      get_current_season 12 = "spring"%string <-> 12 \in [:: 3; 4; 5],
      get_current_season 12 = "summer"%string <-> 12 \in [:: 6; 7; 8] &
      get_current_season 12 = "fall"%string <-> 12 \in [:: 9; 10; 11]].
Proof.
split; first by lia.
by apply: season_table; lia.
Defined.

(** The last branch of [get_current_season] is an unguarded [else]: here,
    where the month is an argument, a value outside 1..12 is labelled
    "fall".  The source takes no month; it reads [datetime.now().month],
    which lies in 1..12, so that this case does not arise there. *)
Lemma season_outside_calendar (m : Z) :
  m < 1 \/ 12 < m -> get_current_season m = "fall"%string.
Proof.
move=> out; rewrite /get_current_season !inE.
by do 9 (case: eqP => [?|_] /=; first by lia).
Qed.

End Seasons.

(** * Order facts about binary64 *)

Section Binary64Order.

Implicit Types (x y z : spec_float).

(** Two floats that compare equal are the same float, up to the sign of
    zero. *)
Lemma SFeqb_inv x y :
  SFeqb x y = true ->
  x = y \/ exists s s', x = S754_zero s /\ y = S754_zero s'.
Proof.
rewrite /SFeqb; case: x y => [s|s||s m e] [s'|s'||s' m' e'] //=;
  try by [case: s | case: s'].
- by move=> _; right; exists s, s'.
- by case: s s' => [] [] // _; left.
- case: s s' => [] [] //; case E: (e ?= e')%Z => //;
    move/Z.compare_eq: E => ->; case M: (Pos.compare_cont Eq m m') => // _;
    by move/Pos.compare_eq: M => ->; left.
Qed.

Lemma SFcompare_zero_l s s' z :
  SFcompare (S754_zero s) z = SFcompare (S754_zero s') z.
Proof. by case: z. Qed.

Lemma SFcompare_zero_r s s' z :
  SFcompare z (S754_zero s) = SFcompare z (S754_zero s').
Proof. by case: z. Qed.

Lemma SFeqb_compare_l x y z : SFeqb x y = true -> SFcompare x z = SFcompare y z.
Proof.
by case/SFeqb_inv => [->|[s [s' [-> ->]]]] //; apply: SFcompare_zero_l.
Qed.

Lemma SFeqb_compare_r x y z : SFeqb x y = true -> SFcompare z x = SFcompare z y.
Proof.
by case/SFeqb_inv => [->|[s [s' [-> ->]]]] //; apply: SFcompare_zero_r.
Qed.

Lemma SFleb_refl x : x <> S754_nan -> SFleb x x = true.
Proof.
rewrite /SFleb; case: x => [s|s||s m e] //= _; first by case: s.
by case: s; rewrite Z.compare_refl Pos.compare_cont_refl.
Qed.

Lemma SFeqb_not_nan x y : SFeqb x y = true -> x <> S754_nan /\ y <> S754_nan.
Proof. by rewrite /SFeqb; case: x y => [s|s||s m e] [s'|s'||s' m' e']. Qed.

End Binary64Order.

Section FloatOrder.

Local Open Scope float_scope.

Implicit Types (x y z : float).

(** A float equal to the lower end of an interval is inside it when the
    interval is not empty; likewise at the upper end. *)
Lemma eqb_leb_l x y z : (x =? y) = true -> (x <=? z) = (y <=? z).
Proof.
by rewrite eqb_spec !leb_spec /SFleb => /SFeqb_compare_l ->.
Qed.

Lemma eqb_leb_r x y z : (x =? y) = true -> (z <=? x) = (z <=? y).
Proof.
by rewrite eqb_spec !leb_spec /SFleb => /SFeqb_compare_r ->.
Qed.

Lemma eqb_leb_refl x y : (x =? y) = true -> (y <=? x) = true.
Proof.
move=> xy; rewrite (eqb_leb_r _ xy); move: xy.
by rewrite eqb_spec leb_spec => /SFeqb_not_nan [_]; apply: SFleb_refl.
Qed.

End FloatOrder.

(** * Rounding to binary64 is monotone

    The bounds [mean - 2 * std] and [mean + 2 * std] are roundings of two
    integers at a common exponent; the lemmas below follow [SpecFloat]'s
    [binary_round] step by step and show that it preserves their order.
    They pass every argument explicitly. *)

Unset Implicit Arguments.

Section RoundArith.
Local Open Scope Z_scope.

Lemma rne_bounds m n :
  let h := m / 2 ^ (n - 1) in
  h / 2 <= rne m n <= (h + 1) / 2.
Proof.
intros h. unfold rne. fold h.
destruct (Z.odd h) eqn:Hodd; simpl.
- assert (Hh := Zodd_bool_iff h). 
  apply Z.odd_spec in Hodd. destruct Hodd as [k Hk].
  destruct (_ || _); Z.div_mod_to_equations; lia.
- Z.div_mod_to_equations; lia.
Qed.

Lemma rne_mono m m' n :
  1 <= n -> 0 <= m <= m' -> rne m n <= rne m' n.
Proof.
intros Hn Hm.
assert (Hp : 0 < 2 ^ (n - 1)) by (apply Z.pow_pos_nonneg; lia).
assert (Hh : m / 2 ^ (n - 1) <= m' / 2 ^ (n - 1)) by (apply Z.div_le_mono; lia).
destruct (Z.eq_dec (m / 2 ^ (n - 1)) (m' / 2 ^ (n - 1))) as [E|E].
- (* same half unit: the remainders are ordered *)
  assert (Ht : m mod 2 ^ (n - 1) <= m' mod 2 ^ (n - 1)).
  { assert (D := Z.div_mod m (2 ^ (n - 1)) ltac:(lia)).
    assert (D' := Z.div_mod m' (2 ^ (n - 1)) ltac:(lia)).
    rewrite <- E in D'. lia. }
  assert (Ht0 : 0 <= m mod 2 ^ (n - 1)) by (apply Z.mod_pos_bound; lia).
  unfold rne. rewrite <- E.
  destruct (Z.odd (m / 2 ^ (n - 1))); simpl; [|lia].
  destruct (Z.odd (m / 2 ^ (n - 1) / 2)); rewrite ?orbT; [lia|].
  rewrite !orbF.
  destruct (Z.eqb_spec (m mod 2 ^ (n - 1)) 0), (Z.eqb_spec (m' mod 2 ^ (n - 1)) 0);
    simpl; lia.
- assert (H1 := rne_bounds m n). assert (H2 := rne_bounds m' n).
  simpl in H1, H2.
  set (h := m / 2 ^ (n - 1)) in *. set (h' := m' / 2 ^ (n - 1)) in *.
  assert ((h + 1) / 2 <= h' / 2) by (apply Z.div_le_mono; lia).
  lia.
Qed.

End RoundArith.

Section ShiftRight.
Local Open Scope Z_scope.

Lemma iter_pos_iter (A : Type) (f : A -> A) (p : positive) (x : A) :
  iter_pos f p x = Pos.iter f x p.
Proof.
revert x; induction p as [p IH|p IH|]; intros x; simpl.
- rewrite !IH. rewrite <- !Pos.iter_swap. reflexivity.
- rewrite !IH. reflexivity.
- reflexivity.
Qed.

Lemma shr_1_nonneg (m : Z) (r s : bool) :
  0 <= m ->
  shr_1 (Build_shr_record m r s) = Build_shr_record (m / 2) (Z.odd m) (r || s).
Proof.
intros Hm. destruct m as [|p|p]; [reflexivity| |lia].
destruct p as [p|p|]; simpl; try reflexivity; f_equal.
- change (Z.pos p~1) with (2 * Z.pos p + 1). Z.div_mod_to_equations; lia.
- change (Z.pos p~0) with (2 * Z.pos p). Z.div_mod_to_equations; lia.
Qed.

(** Low bits: a number is a multiple of [2 * a] when it is a multiple of
    [a] and the quotient is even. *)
Lemma mod_double (m a : Z) :
  0 <= m -> 0 < a ->
  Z.odd (m / a) || ~~ (m mod a =? 0) = ~~ (m mod (2 * a) =? 0).
Proof.
intros Hm Ha.
assert (D := Z.div_mod m a ltac:(lia)).
assert (B := Z.mod_pos_bound m a Ha).
assert (D2 := Z.div_mod (m / a) 2 ltac:(lia)).
assert (B2 := Z.mod_pos_bound (m / a) 2 ltac:(lia)).
assert (E : m mod (2 * a) = a * ((m / a) mod 2) + m mod a).
{ symmetry. apply Z.mod_unique_pos with (q := m / a / 2); nia. }
rewrite E. rewrite Zodd_mod.
destruct (Z.eqb_spec ((m / a) mod 2) 1) as [H1|H1];
  destruct (Z.eqb_spec (m mod a) 0) as [H0|H0];
  destruct (Z.eqb_spec (a * ((m / a) mod 2) + m mod a) 0) as [H|H];
  simpl; try reflexivity; exfalso; nia.
Qed.

Lemma shr_iter (m : Z) (p : positive) :
  0 <= m ->
  iter_pos shr_1 p (Build_shr_record m false false) =
  Build_shr_record (m / 2 ^ Z.pos p)
    (Z.odd (m / 2 ^ (Z.pos p - 1)))
    (~~ (m mod 2 ^ (Z.pos p - 1) =? 0)).
Proof.
intros Hm. rewrite iter_pos_iter.
induction p as [|p IH] using Pos.peano_ind.
- cbn [Pos.iter]. rewrite -> shr_1_nonneg by exact Hm.
  change (2 ^ (1 - 1)) with 1. rewrite Z.div_1_r Z.mod_1_r. reflexivity.
- rewrite Pos.iter_succ IH.
  assert (P : 0 < 2 ^ (Z.pos p - 1)) by (apply Z.pow_pos_nonneg; lia).
  assert (P2 : 2 ^ Z.pos p = 2 * 2 ^ (Z.pos p - 1)).
  { rewrite <- Z.pow_succ_r; [f_equal; lia | lia]. }
  rewrite -> shr_1_nonneg by (apply Z.div_pos; lia).
  rewrite Pos2Z.inj_succ.
  replace (Z.succ (Z.pos p) - 1) with (Z.pos p) by lia.
  rewrite -> Z.pow_succ_r by lia.
  rewrite -> Z.div_div by lia. rewrite (Z.mul_comm (2 ^ Z.pos p) 2).
  f_equal. rewrite P2. apply mod_double; lia.
Qed.

Lemma round_nearest_even_rne (m : Z) (p : positive) :
  0 <= m ->
  let mrs := iter_pos shr_1 p (Build_shr_record m false false) in
  round_nearest_even (shr_m mrs) (loc_of_shr_record mrs) = rne m (Z.pos p).
Proof.
intros Hm mrs. unfold mrs. rewrite -> shr_iter by exact Hm. unfold rne.
assert (P : 0 < 2 ^ (Z.pos p - 1)) by (apply Z.pow_pos_nonneg; lia).
assert (Q : m / 2 ^ Z.pos p = m / 2 ^ (Z.pos p - 1) / 2).
{ rewrite -> Z.div_div by lia. f_equal.
  rewrite Z.mul_comm. rewrite <- Z.pow_succ_r; [f_equal; lia | lia]. }
rewrite Q.
generalize (m / 2 ^ (Z.pos p - 1)) (m mod 2 ^ (Z.pos p - 1) =? 0).
intros h t0. cbn [shr_m].
destruct (Z.odd h), t0; cbn; try reflexivity.
rewrite <- Z.negb_odd.
destruct (Z.odd (h / 2)); reflexivity.
Qed.

End ShiftRight.

Section Digits.
Local Open Scope Z_scope.

Lemma digits2_pos_bounds (m : positive) :
  2 ^ (Z.pos (digits2_pos m) - 1) <= Z.pos m < 2 ^ Z.pos (digits2_pos m).
Proof.
induction m as [m IH|m IH|]; cbn [digits2_pos].
- rewrite Pos2Z.inj_succ.
  replace (Z.succ (Z.pos (digits2_pos m)) - 1) with (Z.succ (Z.pos (digits2_pos m) - 1)) by lia.
  rewrite -> !Z.pow_succ_r by lia. lia.
- rewrite Pos2Z.inj_succ.
  replace (Z.succ (Z.pos (digits2_pos m)) - 1) with (Z.succ (Z.pos (digits2_pos m) - 1)) by lia.
  rewrite -> !Z.pow_succ_r by lia. lia.
- change (2 ^ (1 - 1)) with 1. change (2 ^ 1) with 2. lia.
Qed.

Lemma digits2_pos_mono (m m' : positive) :
  Z.pos m <= Z.pos m' -> Z.pos (digits2_pos m) <= Z.pos (digits2_pos m').
Proof.
intros H. assert (B := digits2_pos_bounds m). assert (B' := digits2_pos_bounds m').
destruct (Z.le_gt_cases (Z.pos (digits2_pos m)) (Z.pos (digits2_pos m'))) as [|G]; [assumption|].
assert (2 ^ Z.pos (digits2_pos m') <= 2 ^ (Z.pos (digits2_pos m) - 1)).
{ apply Z.pow_le_mono_r; lia. }
lia.
Qed.

Lemma iter_xO (m k : positive) : Z.pos (Pos.iter xO m k) = Z.pos m * 2 ^ Z.pos k.
Proof.
induction k as [|k IH] using Pos.peano_ind.
- cbn [Pos.iter]. change (2 ^ 1) with 2. lia.
- rewrite Pos.iter_succ Pos2Z.inj_succ. rewrite -> Z.pow_succ_r by lia.
  rewrite Pos2Z.inj_xO IH. lia.
Qed.

Lemma digits2_pos_iter_xO (m k : positive) :
  Z.pos (digits2_pos (Pos.iter xO m k)) = Z.pos (digits2_pos m) + Z.pos k.
Proof.
induction k as [|k IH] using Pos.peano_ind.
- cbn [Pos.iter digits2_pos]. lia.
- rewrite Pos.iter_succ. cbn [digits2_pos]. rewrite !Pos2Z.inj_succ IH. lia.
Qed.

End Digits.

Section RoundSpec.
Local Open Scope Z_scope.

Lemma fexp_eq (x : Z) : fexp prec emax x = Z.max (x - 53) (-1074).
Proof. reflexivity. Qed.

Lemma shr_nonpos (mrs : shr_record) (e n : Z) : n <= 0 -> shr mrs e n = (mrs, e).
Proof. destruct n; [reflexivity|lia|reflexivity]. Qed.

Lemma shr_pos (m : Z) (e : Z) (p : positive) :
  shr (Build_shr_record m false false) e (Z.pos p) =
  (iter_pos shr_1 p (Build_shr_record m false false), e + Z.pos p).
Proof. reflexivity. Qed.

(** Rounding a mantissa that already sits at its exponent. *)
Lemma binary_round_aux_exact (s : bool) (m : positive) (e : Z) :
  fexp prec emax (Z.pos (digits2_pos m) + e) <= e ->
  binary_round_aux prec emax s (Z.pos m) e loc_Exact = fin_or_inf s m e.
Proof.
intros H. unfold binary_round_aux, shr_fexp.
cbn [Zdigits2 shr_record_of_loc].
rewrite -> shr_nonpos by lia.
cbn [shr_m loc_of_shr_record round_nearest_even Zdigits2].
rewrite -> shr_nonpos by lia.
reflexivity.
Qed.

Lemma rne_upper (m : positive) (n : Z) :
  1 <= n -> Z.pos (digits2_pos m) <= 53 + n ->
  0 <= rne (Z.pos m) n <= 2 ^ 53.
Proof.
intros Hn Hd. assert (B := rne_bounds (Z.pos m) n). cbv zeta in B.
assert (P : 0 < 2 ^ (n - 1)) by (apply Z.pow_pos_nonneg; lia).
assert (H0 : 0 <= Z.pos m / 2 ^ (n - 1)) by (apply Z.div_pos; lia).
assert (H1 : Z.pos m / 2 ^ (n - 1) < 2 ^ 54).
{ apply Z.div_lt_upper_bound; [lia|].
  rewrite <- Z.pow_add_r by lia.
  assert (D := digits2_pos_bounds m).
  assert (2 ^ Z.pos (digits2_pos m) <= 2 ^ (n - 1 + 54)) by (apply Z.pow_le_mono_r; lia).
  lia. }
split.
- assert (0 <= Z.pos m / 2 ^ (n - 1) / 2) by (apply Z.div_pos; lia). lia.
- assert ((Z.pos m / 2 ^ (n - 1) + 1) / 2 <= 2 ^ 54 / 2) by (apply Z.div_le_mono; lia).
  change (2 ^ 54 / 2) with (2 ^ 53) in *. lia.
Qed.

(** Rounding a mantissa that has bits below its exponent. *)
Lemma binary_round_aux_inexact (s : bool) (m : positive) (e : Z) :
  let fe := fexp prec emax (Z.pos (digits2_pos m) + e) in
  e < fe ->
  binary_round_aux prec emax s (Z.pos m) e loc_Exact =
  of_key s (carry_key (rne (Z.pos m) (fe - e)) fe).
Proof.
intros fe H.
assert (Hfe : fe = Z.max (Z.pos (digits2_pos m) + e - 53) (-1074)) by reflexivity.
unfold binary_round_aux, shr_fexp.
cbn [Zdigits2 shr_record_of_loc]. fold fe.
destruct (fe - e) as [|p|p] eqn:Hn; [lia| |lia].
rewrite shr_pos.
assert (R := round_nearest_even_rne (Z.pos m) p ltac:(lia)). cbv zeta in R.
rewrite R. clear R.
assert (U := rne_upper m (Z.pos p) ltac:(lia) ltac:(lia)).
replace (e + Z.pos p) with fe by lia.
unfold carry_key.
set (m1 := rne (Z.pos m) (Z.pos p)) in *. clearbody m1.
destruct (Z.eqb_spec m1 0) as [->|N0].
- cbn [Zdigits2]. rewrite -> shr_nonpos by (rewrite fexp_eq; lia). reflexivity.
- destruct (Z.eqb_spec m1 (2 ^ 53)) as [->|N1].
  + change (Zdigits2 (2 ^ 53)) with 54.
    replace (fexp prec emax (54 + fe) - fe) with 1 by (rewrite fexp_eq; lia).
    reflexivity.
  + destruct m1 as [|p1|p1]; [lia| |lia].
    cbn [Zdigits2 shr_record_of_loc Z.to_pos].
    assert (D := digits2_pos_bounds p1).
    assert (Z.pos (digits2_pos p1) <= 53).
    { destruct (Z.le_gt_cases (Z.pos (digits2_pos p1)) 53) as [|G]; [assumption|].
      assert (2 ^ 53 <= 2 ^ (Z.pos (digits2_pos p1) - 1)) by (apply Z.pow_le_mono_r; lia).
      lia. }
    rewrite -> shr_nonpos by (rewrite fexp_eq; lia).
    reflexivity.
Qed.

End RoundSpec.

Section Keys.
Local Open Scope Z_scope.

Lemma binary_round_key (s : bool) (m : positive) (e : Z) :
  binary_round prec emax s m e = of_key s (round_key m e).
Proof.
unfold binary_round, round_key, shl_align.
set (fe := fexp prec emax (Z.pos (digits2_pos m) + e)).
destruct (fe - e) as [|p|p] eqn:Hn.
- assert (fe = e) by lia.
  rewrite -> binary_round_aux_exact by (fold fe; lia).
  replace (fe <=? e) with true by (symmetry; apply Z.leb_le; lia).
  replace (e - fe) with 0 by lia.
  rewrite Z.mul_1_r. cbn [Z.to_pos of_key]. congruence.
- replace (fe <=? e) with false by (symmetry; apply Z.leb_gt; lia).
  rewrite -> binary_round_aux_inexact by (fold fe; lia).
  fold fe. rewrite Hn. reflexivity.
- replace (fe <=? e) with true by (symmetry; apply Z.leb_le; lia).
  rewrite -> binary_round_aux_exact.
  + cbn [of_key]. f_equal.
    replace (e - fe) with (Z.pos p) by lia.
    rewrite <- iter_xO. reflexivity.
  + rewrite digits2_pos_iter_xO.
    replace (Z.pos (digits2_pos m) + Z.pos p + fe) with (Z.pos (digits2_pos m) + e) by lia.
    fold fe. lia.
Qed.

End Keys.

Section KeyOrder.
Local Open Scope Z_scope.

(** Positive results are ordered as their keys. *)
Lemma of_key_le (k k' : option (Z * positive)) :
  key_le k k' -> SFleb (of_key false k) (of_key false k') = true.
Proof.
destruct k as [[e m]|], k' as [[e' m']|]; cbn [key_le of_key]; try easy.
- unfold fin_or_inf, SFleb.
  intros [He|[He Hm]].
  + destruct (Z.leb_spec e (emax - prec)), (Z.leb_spec e' (emax - prec));
      cbn [SFcompare]; try reflexivity; try lia.
    apply Z.compare_lt_iff in He. rewrite He. reflexivity.
  + subst e'. destruct (e <=? emax - prec); cbn [SFcompare]; [|reflexivity].
    rewrite Z.compare_refl.
    change (PosDef.Pos.compare_cont Eq m m') with (Pos.compare m m').
    destruct (Pos.compare_spec m m'); try reflexivity. lia.
- intros _. unfold fin_or_inf, SFleb. destruct (e' <=? emax - prec); reflexivity.
Qed.

(** Negative results are ordered against their keys. *)
Lemma of_key_le_neg (k k' : option (Z * positive)) :
  key_le k k' -> SFleb (of_key true k') (of_key true k) = true.
Proof.
destruct k as [[e m]|], k' as [[e' m']|]; cbn [key_le of_key]; try easy.
- unfold fin_or_inf, SFleb.
  intros [He|[He Hm]].
  + destruct (Z.leb_spec e (emax - prec)), (Z.leb_spec e' (emax - prec));
      cbn [SFcompare]; try reflexivity; try lia.
    apply Z.compare_lt_iff in He. rewrite Z.compare_antisym He. reflexivity.
  + subst e'. destruct (e <=? emax - prec); cbn [SFcompare]; [|reflexivity].
    rewrite Z.compare_refl.
    change (PosDef.Pos.compare_cont Eq m' m) with (Pos.compare m' m).
    destruct (Pos.compare_spec m' m); try reflexivity. lia.
- intros _. unfold fin_or_inf, SFleb. destruct (e' <=? emax - prec); reflexivity.
Qed.

Lemma of_key_neg_le_pos (k k' : option (Z * positive)) :
  SFleb (of_key true k) (of_key false k') = true.
Proof.
destruct k as [[e m]|], k' as [[e' m']|]; cbn [of_key]; unfold fin_or_inf, SFleb;
  repeat match goal with |- context [(?a <=? ?b)] => destruct (a <=? b) end;
  reflexivity.
Qed.

Lemma of_key_neg_le_zero (k : option (Z * positive)) (s : bool) :
  SFleb (of_key true k) (S754_zero s) = true.
Proof. exact (of_key_neg_le_pos k None). Qed.

Lemma zero_le_of_key (k : option (Z * positive)) (s : bool) :
  SFleb (S754_zero s) (of_key false k) = true.
Proof.
destruct k as [[e m]|]; cbn [of_key]; unfold fin_or_inf, SFleb;
  repeat match goal with |- context [(?a <=? ?b)] => destruct (a <=? b) end;
  reflexivity.
Qed.

End KeyOrder.

Section RoundMono.
Local Open Scope Z_scope.

(** Above the subnormal range the rounded mantissa keeps its leading bit. *)
Lemma rne_lower (m : positive) (n : Z) :
  1 <= n -> n = Z.pos (digits2_pos m) - 53 -> 2 ^ 52 <= rne (Z.pos m) n.
Proof.
intros Hn Hd. assert (B := rne_bounds (Z.pos m) n). cbv zeta in B.
assert (D := digits2_pos_bounds m).
assert (P : 0 < 2 ^ (n - 1)) by (apply Z.pow_pos_nonneg; lia).
assert (E : 2 ^ (Z.pos (digits2_pos m) - 1) = 2 ^ 53 * 2 ^ (n - 1)).
{ rewrite <- Z.pow_add_r by lia. f_equal. lia. }
assert (H : 2 ^ 53 <= Z.pos m / 2 ^ (n - 1)).
{ apply Z.div_le_lower_bound; lia. }
assert (2 ^ 53 / 2 <= Z.pos m / 2 ^ (n - 1) / 2) by (apply Z.div_le_mono; lia).
change (2 ^ 53 / 2) with (2 ^ 52) in *. lia.
Qed.

Lemma to_pos_le (a b : Z) : 0 < a -> a <= b -> (Z.to_pos a <= Z.to_pos b)%positive.
Proof. intros Ha Hab. destruct a, b; cbn [Z.to_pos]; lia. Qed.

Lemma round_key_mono (m m' : positive) (e : Z) :
  Z.pos m <= Z.pos m' -> key_le (round_key m e) (round_key m' e).
Proof.
intros Hm. unfold round_key.
assert (Hd := digits2_pos_mono m m' Hm).
set (d := Z.pos (digits2_pos m)) in *. set (d' := Z.pos (digits2_pos m')) in *.
rewrite !fexp_eq.
set (fe := Z.max (d + e - 53) (-1074)). set (fe' := Z.max (d' + e - 53) (-1074)).
assert (Hfe : fe <= fe') by (unfold fe, fe'; lia).
(* the larger number, when it is rounded above the smaller one's exponent *)
assert (Hlow : e < fe' -> fe < fe' -> 2 ^ 52 <= rne (Z.pos m') (fe' - e)).
{ intros H1 H2. apply rne_lower; [lia|]. fold d'. unfold fe, fe' in *. lia. }
assert (Hup' : e < fe' -> 0 <= rne (Z.pos m') (fe' - e) <= 2 ^ 53).
{ intros H1. apply rne_upper; [lia|]. fold d'. unfold fe' in *. lia. }
assert (Hup : e < fe -> 0 <= rne (Z.pos m) (fe - e) <= 2 ^ 53).
{ intros H1. apply rne_upper; [lia|]. fold d. unfold fe in *. lia. }
assert (C52 : 2 ^ 52 = 4503599627370496) by reflexivity.
assert (C53 : 2 ^ 53 = 9007199254740992) by reflexivity.
destruct (Z.leb_spec fe e) as [Le|Gt]; destruct (Z.leb_spec fe' e) as [Le'|Gt'].
- (* both exact *)
  cbn [key_le].
  destruct (Z.eq_dec fe fe') as [E|N]; [right|left; lia].
  split; [exact E|]. rewrite <- E.
  assert (0 < 2 ^ (e - fe)) by (apply Z.pow_pos_nonneg; lia).
  apply to_pos_le; nia.
- (* exact, then rounded at a higher exponent *)
  specialize (Hlow Gt' ltac:(lia)). specialize (Hup' Gt').
  unfold carry_key.
  destruct (Z.eqb_spec (rne (Z.pos m') (fe' - e)) 0); [lia|].
  destruct (Z.eqb_spec (rne (Z.pos m') (fe' - e)) (2 ^ 53)); cbn [key_le]; left; lia.
- lia.
- (* both rounded *)
  specialize (Hup Gt). specialize (Hup' Gt').
  unfold carry_key.
  destruct (Z.eqb_spec (rne (Z.pos m) (fe - e)) 0) as [Z0|NZ]; [exact I|].
  destruct (Z.eq_dec fe fe') as [E|N].
  + (* same exponent: the rounded mantissas are ordered *)
    assert (R := rne_mono (Z.pos m) (Z.pos m') (fe - e) ltac:(lia) ltac:(lia)).
    rewrite <- E in *.
    destruct (Z.eqb_spec (rne (Z.pos m') (fe - e)) 0); [lia|].
    destruct (Z.eqb_spec (rne (Z.pos m) (fe - e)) (2 ^ 53));
      destruct (Z.eqb_spec (rne (Z.pos m') (fe - e)) (2 ^ 53)); cbn [key_le].
    * right. split; [reflexivity|lia].
    * lia.
    * left. lia.
    * right. split; [reflexivity|]. apply to_pos_le; lia.
  + specialize (Hlow Gt' ltac:(lia)).
    destruct (Z.eqb_spec (rne (Z.pos m') (fe' - e)) 0); [lia|].
    destruct (Z.eqb_spec (rne (Z.pos m) (fe - e)) (2 ^ 53));
      destruct (Z.eqb_spec (rne (Z.pos m') (fe' - e)) (2 ^ 53)); cbn [key_le].
    * left. lia.
    * destruct (Z.eq_dec (fe + 1) fe'); [right|left; lia].
      split; [assumption|].
      change (2 ^ 52)%positive with (Z.to_pos (2 ^ 52)). apply to_pos_le; lia.
    * left. lia.
    * left. lia.
Qed.

(** Rounding a positive integer mantissa at a fixed exponent is monotone. *)
Lemma binary_round_mono (m m' : positive) (e : Z) :
  Z.pos m <= Z.pos m' ->
  SFleb (binary_round prec emax false m e) (binary_round prec emax false m' e)
  = true.
Proof.
intros H. rewrite !binary_round_key. apply of_key_le, round_key_mono, H.
Qed.

Lemma binary_round_mono_neg (m m' : positive) (e : Z) :
  Z.pos m <= Z.pos m' ->
  SFleb (binary_round prec emax true m' e) (binary_round prec emax true m e)
  = true.
Proof.
intros H. rewrite !binary_round_key. apply of_key_le_neg, round_key_mono, H.
Qed.

Lemma binary_normalize_mono (a b e : Z) :
  a <= b ->
  SFleb (binary_normalize prec emax a e false)
        (binary_normalize prec emax b e false) = true.
Proof.
intros H. destruct a as [|a|a], b as [|b|b]; cbn [binary_normalize]; try lia.
- reflexivity.
- rewrite binary_round_key. apply zero_le_of_key.
- apply binary_round_mono. exact H.
- rewrite binary_round_key. apply of_key_neg_le_zero.
- rewrite !binary_round_key. apply of_key_neg_le_pos.
- apply binary_round_mono_neg. lia.
Qed.

End RoundMono.

Section Bounds.

Lemma SFleb_zero_nonneg (y : spec_float) :
  SFleb (S754_zero false) y = true -> nonneg y.
Proof. by case: y => [s|[]||[] m e]. Qed.

Lemma binary_round_aux_nonneg (m e : Z) (l : location) :
  let r := binary_round_aux prec emax false m e l in
  r = S754_nan \/ nonneg r.
Proof.
rewrite /binary_round_aux.
case: (shr_fexp _ _ _ _ _) => mrs' e'; case: (shr_fexp _ _ _ _ _) => mrs'' e''.
case: (shr_m mrs'') => [|p|p] /=; [by right| |by left].
by case: (_ <=? _)%Z; right.
Qed.

Lemma of_key_not_nan (s : bool) (k : option (Z * positive)) :
  of_key s k <> S754_nan.
Proof.
by case: k => [[e m]|] //=; rewrite /fin_or_inf; case: (_ <=? _)%Z.
Qed.

Lemma binary_round_aux_not_nan (s : bool) (m : positive) (e : Z) :
  binary_round_aux prec emax s (Z.pos m) e loc_Exact <> S754_nan.
Proof.
case: (Z.le_gt_cases (fexp prec emax (Z.pos (digits2_pos m) + e)) e) => H.
- rewrite binary_round_aux_exact //.
  exact: (of_key_not_nan s (Some (e, m))).
- rewrite binary_round_aux_inexact //.
  exact: of_key_not_nan.
Qed.

Lemma binary_normalize_not_nan (a e : Z) :
  binary_normalize prec emax a e false <> S754_nan.
Proof.
by case: a => [|p|p] //=; rewrite binary_round_key; apply: of_key_not_nan.
Qed.

Lemma SFmul_nonneg (m : positive) (e : Z) (y : spec_float) :
  nonneg y -> nonneg (SF64mul (S754_finite false m e) y).
Proof.
case: y => [s|[]||[] m' e'] //= _.
by case: (binary_round_aux_nonneg (Z.pos (m * m')) (e + e') loc_Exact) => // /binary_round_aux_not_nan.
Qed.

(** The bounds around a finite mean are numbers. *)
Lemma SFsub_SFadd_not_nan (x d : spec_float) :
  finite_sf x -> nonneg d ->
  SF64sub x d <> S754_nan /\ SF64add x d <> S754_nan.
Proof.
case: x d => [sx|sx||sx mx ex] [sd|[]||[] md ed] //= _ _; split=> //;
  try exact: binary_normalize_not_nan.
- by case: sx sd => [] [].
- by case: sx sd => [] [].
Qed.

(** The lower bound is below the upper bound. *)
Lemma SFsub_le_SFadd (x d : spec_float) :
  nonneg d ->
  SF64sub x d <> S754_nan -> SF64add x d <> S754_nan ->
  SFleb (SF64sub x d) (SF64add x d) = true.
Proof.
case: x d => [sx|sx||sx mx ex] [sd|[]||[] md ed] //= _.
- by case: sx sd => [] [].
- by move=> *; apply: SFleb_refl.
- by case: sx => H1 H2; [case: H2 | case: H1].
- by move=> *; apply: SFleb_refl.
- by move=> *; apply: SFleb_refl.
- move=> _ _; apply: binary_normalize_mono.
  lia.
Qed.

End Bounds.

Set Implicit Arguments.

Section FloatBounds.

Local Open Scope float_scope.

Implicit Types (x y mean std : float).

Lemma is_nan_Prim2SF x : is_nan x = false -> Prim2SF x <> S754_nan.
Proof.
move=> nx E; have xe : x = nan by apply: Prim2SF_inj; rewrite E.
by rewrite xe in nx.
Qed.

Lemma Prim2SF_nonneg x : (0 <=? x) = true -> nonneg (Prim2SF x).
Proof. by rewrite leb_spec => /SFleb_zero_nonneg. Qed.

Lemma Prim2SF_is_nan x : Prim2SF x <> S754_nan -> is_nan x = false.
Proof. by move=> nx; apply/negbTE/negP => /is_nan_eq xe; rewrite xe in nx. Qed.

Lemma Prim2SF_finite x : is_finite x -> finite_sf (Prim2SF x).
Proof.
rewrite /is_finite negb_or /is_infinity eqb_spec abs_spec.
case/andP => /negbTE/is_nan_Prim2SF.
by case: (Prim2SF x) => [s|s||s m e].
Qed.

(** Twice a non-negative number is non-negative. *)
Lemma Prim2SF_double_nonneg x :
  (0 <=? x) = true -> nonneg (Prim2SF (2 * x)).
Proof.
move=> /Prim2SF_nonneg x0; rewrite mul_spec.
exact: (@SFmul_nonneg 4503599627370496 (-51)%Z).
Qed.

(** With a non-negative standard deviation the lower bound of the
    two-sigma interval is not above the upper bound. *)
Lemma two_sigma_bounds_ordered mean std :
  (0 <=? std) = true ->
  is_nan (mean - 2 * std) = false -> is_nan (mean + 2 * std) = false ->
  (mean - 2 * std <=? mean + 2 * std) = true.
Proof.
move=> /Prim2SF_double_nonneg sd0 /is_nan_Prim2SF lo /is_nan_Prim2SF up.
rewrite leb_spec; move: lo up; rewrite sub_spec add_spec.
exact: SFsub_le_SFadd.
Qed.

(** Around a finite mean both bounds are numbers. *)
Lemma two_sigma_bounds_not_nan mean std :
  is_finite mean -> (0 <=? std) = true ->
  is_nan (mean - 2 * std) = false /\ is_nan (mean + 2 * std) = false.
Proof.
move=> /Prim2SF_finite fm /Prim2SF_double_nonneg sd0.
case: (SFsub_SFadd_not_nan _ _ fm sd0) => lo up.
by split; apply: Prim2SF_is_nan; rewrite ?sub_spec ?add_spec.
Qed.

Lemma eqb_leb x y : (x =? y) = true -> (x <=? y) = true.
Proof.
by rewrite eqb_spec leb_spec /SFeqb /SFleb; case: (SFcompare _ _) => [[]|].
Qed.

End FloatBounds.

(** * The live classification *)

Section Classifier.

Local Open Scope float_scope.

Implicit Types (df : dataframe) (c s : string) (cs : seq Stats.row).
Implicit Types (month : Z) (temp : float) (b : Stats.row).

(** With a baseline to read, the classifier returns the two comparisons
    of the source together with the baseline's statistics. *)
Lemma check_temperature_normality_baseline month temp cs b :
  baseline cs (get_current_season month) = Some b ->
  check_temperature_normality month temp cs =
  Ok ((Stats.mean b - 2 * Stats.std b <=? temp) &&
      (temp <=? Stats.mean b + 2 * Stats.std b),
      Stats.mean b, Stats.std b).
Proof.
rewrite /baseline /check_temperature_normality.
by case: (select_season _ _) => [|b' l] //= [->].
Qed.

(** Without one, [.iloc[0]] raises. *)
Lemma check_temperature_normality_no_baseline month temp cs :
  baseline cs (get_current_season month) = None ->
  check_temperature_normality month temp cs = Raise IndexError.
Proof.
rewrite /baseline /check_temperature_normality.
by case: (select_season _ _).
Qed.

Lemma has_season_city_data df c s :
  has (fun r => season r == s) (city_data df c) =
  has (fun r => (city r == c) && (season r == s)) df.
Proof. by elim: df => //= r df <-; case: (city r == c). Qed.

(** C5: no baseline, no classification.  When the dataset has no
    observation of the selected city in the current season, [city_stats]
    has no row for that season and the classifier raises (the [IndexError]
    of [.iloc[0]], which plays the part of [NoBaselineForSeason]); it
    returns no classification at all. *)
Theorem check_temperature_normality_missing_season df c month temp :
  ~~ has (fun r => (city r == c) && (season r == get_current_season month)) df ->
  [/\ baseline (city_stats df c) (get_current_season month) = None,
      check_temperature_normality month temp (city_stats df c) =
      Raise IndexError &
      forall res, check_temperature_normality month temp (city_stats df c) <>
                  Ok res].
Proof.
rewrite -has_season_city_data has_season_mem => /select_season_absent abs.
have nob : baseline (city_stats df c) (get_current_season month) = None.
  by rewrite /baseline /city_stats abs.
by split=> // [|res]; rewrite check_temperature_normality_no_baseline.
Qed.

Lemma check_temperature_normality_missing_season_witness :
  ~~ has (fun r => (city r == "Berlin"%string) &&
                   (season r == get_current_season 4)) example_df /\
  [/\ baseline (city_stats example_df "Berlin") (get_current_season 4) = None,
      check_temperature_normality 4 12 (city_stats example_df "Berlin") =
      Raise IndexError &
      forall res,
        check_temperature_normality 4 12 (city_stats example_df "Berlin") <>
        Ok res].
Proof.
split; first by vm_compute.
by apply: check_temperature_normality_missing_season; vm_compute.
Defined.

(** C4, as the code has it: with a NaN standard deviation both bounds are
    NaN, both comparisons are false, and the classifier answers
    [is_normal = False] (the reading is shown as anomalous), next to the
    mean and the NaN standard deviation of the baseline. *)
Theorem check_temperature_normality_nan_std month temp cs b :
  baseline cs (get_current_season month) = Some b ->
  is_nan (Stats.std b) ->
  check_temperature_normality month temp cs =
  Ok (false, Stats.mean b, Stats.std b).
Proof.
move=> /check_temperature_normality_baseline -> /is_nan_eq ->.
by rewrite mul_nan_r sub_nan_r leb_nan_l.
Qed.

Lemma check_temperature_normality_nan_std_witness :
  let cs := city_stats example_df "Berlin" in
  let b := Stats.Row "winter" (-1) nan in
  [/\ baseline cs (get_current_season 1) = Some b,
      is_nan (Stats.std b) &
      check_temperature_normality 1 (-1) cs =
      Ok (false, Stats.mean b, Stats.std b)].
Proof.
split; [by vm_compute | by vm_compute |].
by apply: check_temperature_normality_nan_std; vm_compute.
Defined.

(** C4, as the claim has it, fails: Berlin has a single winter observation,
    [-1.0]; in January a live reading of [-1.0], the seasonal mean itself,
    is answered with [is_normal = False], a definite verdict. *)
Lemma check_temperature_normality_nan_std_counterexample :
  size (season_temperatures example_df "Berlin" "winter") = 1%N /\
  check_temperature_normality 1 (-1) (city_stats example_df "Berlin") =
  Ok (false, (-1), nan).
Proof. by vm_compute. Qed.

(** C3: the live classification is the closed two-sigma interval.  With
    [lower = mean - 2 * std] and [upper = mean + 2 * std] for the baseline
    of the current season, the classifier answers
    [lower <= temp <= upper], whatever the numbers; and for a baseline with
    a finite mean and a standard deviation that is a non-negative number,
    a temperature equal to either bound is classified as normal. *)
Theorem check_temperature_normality_inclusive month temp cs b :
  baseline cs (get_current_season month) = Some b ->
  let lower := Stats.mean b - 2 * Stats.std b in
  let upper := Stats.mean b + 2 * Stats.std b in
  check_temperature_normality month temp cs =
  Ok ((lower <=? temp) && (temp <=? upper), Stats.mean b, Stats.std b) /\
  (is_finite (Stats.mean b) -> (0 <=? Stats.std b) = true ->
   (temp =? lower) || (temp =? upper) ->
   check_temperature_normality month temp cs =
   Ok (true, Stats.mean b, Stats.std b)).
Proof.
move=> /check_temperature_normality_baseline -> lower upper; split=> //.
move=> fin_mean sd0 edge.
have [lo up] := two_sigma_bounds_not_nan fin_mean sd0.
have ord := two_sigma_bounds_ordered sd0 lo up.
rewrite -/lower -/upper in ord *.
case/orP: edge => E.
- by rewrite (eqb_leb_refl E) (eqb_leb_l _ E) ord.
- by rewrite (eqb_leb_r _ E) ord (eqb_leb E).
Qed.

Lemma check_temperature_normality_inclusive_witness :
  let b := Stats.Row "winter" 0 3 in
  let cs := [:: b] in
  [/\ baseline cs (get_current_season 1) = Some b,
      is_finite (Stats.mean b),
      (0 <=? Stats.std b) = true,
      ((-6) =? Stats.mean b - 2 * Stats.std b) ||
      ((-6) =? Stats.mean b + 2 * Stats.std b) &
      check_temperature_normality 1 (-6) cs = Ok (true, 0, 3)].
Proof.
split; [by vm_compute | by vm_compute | by vm_compute | by vm_compute |].
apply: (proj2 (@check_temperature_normality_inclusive 1 (-6)
                 [:: Stats.Row "winter" 0 3] (Stats.Row "winter" 0 3) erefl));
  by vm_compute.
Defined.

End Classifier.

(** * The scenarios of the specification, run on the model *)

Section Scenarios.

Local Open Scope float_scope.

(** Berlin in summer, [20, 22, 18, 50]: the mean is 27.5 and the reading of
    50 raises the standard deviation enough not to be flagged itself. *)
Example berlin_summer :
  omap Stats.mean (baseline (city_stats example_df "Berlin") "summer") =
  Some 27.5 /\
  anomalies example_df "Berlin" = [:: false; false; false; false; false].
Proof. by vm_compute. Qed.

(** A live reading of 5 degrees in January against a winter baseline of
    mean 0 and standard deviation 3 is normal; so are the two ends of the
    interval, and the next float beyond either end is not. *)
Example winter_reading :
  let cs := [:: Stats.Row "winter" 0 3] in
  [/\ check_temperature_normality 1 5 cs = Ok (true, 0, 3),
      check_temperature_normality 1 (-6) cs = Ok (true, 0, 3),
      check_temperature_normality 1 6 cs = Ok (true, 0, 3),
      check_temperature_normality 1 (next_up 6) cs = Ok (false, 0, 3) &
      check_temperature_normality 1 (next_down (-6)) cs = Ok (false, 0, 3)].
Proof. by vm_compute. Qed.

End Scenarios.

(** * Further properties of the data pipeline *)

Section PipelineExtras.

Implicit Types (df d : dataframe) (c s : string) (r : observation) (i : nat).

Lemma string_leb_total : total String.leb.
Proof. by move=> a b; case: (String.leb_total a b) => ->; rewrite ?orbT. Qed.

(** X1: the cities offered for selection are the cities of the dataset,
    each listed once, in increasing order. *)
Theorem cities_listing df :
  [/\ sorted String.leb (cities df), uniq (cities df) &
      forall c, (c \in cities df) = has (fun r => city r == c) df].
Proof.
split; first exact: sort_sorted string_leb_total _.
- by rewrite /cities sort_uniq undup_uniq.
- by move=> c; rewrite cities_mem has_city_mem.
Qed.

Lemma sum_count_city (cs : seq string) df :
  uniq cs ->
  \sum_(c <- cs) count (fun r => city r == c) df =
  count (fun r => city r \in cs) df.
Proof.
move=> ucs; elim: df => [|r df IH] /=; first by rewrite big1.
rewrite big_split /= IH; congr (_ + _).
rewrite -(count_uniq_mem _ ucs) -sum1_count [RHS]big_mkcond /=.
by apply: eq_bigr => c _; rewrite eq_sym; case: eqP.
Qed.

(** X2: the selectable cities split the dataset: the sizes of their
    [city_data] frames add up to the size of the dataset, so that every
    observation belongs to the data of exactly one listed city. *)
Theorem city_data_partition df :
  \sum_(c <- cities df) size (city_data df c) = size df.
Proof.
have uc : uniq (cities df) by rewrite /cities sort_uniq undup_uniq.
under eq_bigr => c _ do rewrite /city_data size_filter.
rewrite sum_count_city //; apply/eqP; rewrite -all_count.
have: {subset [seq city r | r <- df] <= cities df}.
  by move=> c; rewrite cities_mem.
move: (cities df) => cs {uc}; elim: df => //= r d IH sub.
rewrite sub ?mem_head //=.
by apply: IH => c cd; apply: sub; rewrite in_cons cd orbT.
Qed.

Lemma seasons_city_stats df c :
  [seq Stats.season b | b <- city_stats df c] = group_keys (city_data df c).
Proof. by rewrite /city_stats /groupby_agg -map_comp map_id. Qed.

(** X3: the table of seasonal statistics has one row for each season in
    which the city was observed and no other row; its seasons are in
    increasing order.  The selection made by the live classification
    therefore holds at most one row. *)
Theorem city_stats_one_row_per_season df c s :
  let seasons := [seq Stats.season b | b <- city_stats df c] in
  [/\ sorted String.leb seasons, uniq seasons,
      (s \in seasons) =
      has (fun r => (city r == c) && (season r == s)) df &
      size (select_season (city_stats df c) s) = (s \in seasons)].
Proof.
rewrite /= seasons_city_stats; split.
- exact: sort_sorted string_leb_total _.
- exact: group_keys_uniq.
- by rewrite group_keysE -has_season_mem has_season_city_data.
- rewrite /city_stats select_season_groupby_agg size_map size_filter.
  by rewrite -(count_uniq_mem _ (group_keys_uniq _)); apply: eq_count => k.
Qed.

(** X4: the two traces of the temperature chart split the rows of the
    city: the markers are the points of the rows that the two-sigma rule
    flags, the line is made of the points of the other rows, and every row
    is drawn in exactly one of them. *)
Theorem chart_traces df c :
  let d := city_data df c in
  [/\ anomaly_trace df c = points [seq r <- d | flagged d r],
      normal_trace df c = points [seq r <- d | ~~ flagged d r] &
      size (normal_trace df c) + size (anomaly_trace df c) = size d].
Proof.
rewrite /= /anomaly_trace /normal_trace /select_rows anomaliesE -map_comp.
rewrite -!filter_mask; split=> //.
rewrite /points !size_map; move: (city_data df c) => d.
by rewrite !size_filter addnC; apply: (count_predC (flagged d)).
Qed.

(** X5: a row without a temperature (NaN) is never flagged, whatever the
    statistics of its season. *)
Theorem anomalies_nan_temperature df c r0 i :
  i < size (city_data df c) ->
  is_nan (temperature (nth r0 (city_data df c) i)) ->
  nth true (anomalies df c) i = false.
Proof.
move=> id /is_nan_eq tnan; rewrite (@nth_anomalies _ _ r0) // /flagged tnan.
by rewrite ltb_nan_l ltb_nan_r.
Qed.

Lemma anomalies_nan_temperature_witness :
  let df := [:: Observation "Oslo" 1 2 "winter";
                Observation "Oslo" 2 nan "winter";
                Observation "Oslo" 3 (-4) "winter"] in
  [/\ (1 < size (city_data df "Oslo"))%N,
      is_nan (temperature (nth no_observation (city_data df "Oslo") 1)) &
      nth true (anomalies df "Oslo") 1 = false].
Proof.
split; [by vm_compute | by vm_compute |].
by apply: (@anomalies_nan_temperature _ "Oslo" no_observation 1); vm_compute.
Defined.

End PipelineExtras.

(** * Further facts about the order of binary64 *)

Section CompareFacts.

Implicit Types (x y z : spec_float).

Lemma SFcompare_antisym x y :
  SFcompare y x = omap CompOpp (SFcompare x y).
Proof.
case: x y => [s|s||s m e] [s'|s'||s' m' e'] //=;
  try by [case: s | case: s' | case: s s' => [] []].
case: s s' => [] [] //=; rewrite (Z.compare_antisym e e');
  case: (e ?= e')%Z => //=;
  change (PosDef.Pos.compare_cont Eq m' m) with (Pos.compare m' m);
  change (PosDef.Pos.compare_cont Eq m m') with (Pos.compare m m');
  by rewrite (Pos.compare_antisym m m'); case: (m ?= m')%positive.
Qed.

Lemma SFltb_not_leb x y : SFltb x y = true -> SFleb y x = false.
Proof.
by rewrite /SFltb /SFleb (SFcompare_antisym x y); case: (SFcompare x y) => [[]|].
Qed.

Lemma SFcompare_some x y :
  x <> S754_nan -> y <> S754_nan -> exists c, SFcompare x y = Some c.
Proof.
case: x y => [s|s||s m e] [s'|s'||s' m' e'] nx ny;
  by [case: nx | case: ny | eexists].
Qed.

Lemma SFltb_negb_leb x y :
  x <> S754_nan -> y <> S754_nan -> SFltb x y = ~~ SFleb y x.
Proof.
move=> nx ny; rewrite /SFltb /SFleb (SFcompare_antisym x y).
by case: (SFcompare_some nx ny) => c ->; case: c.
Qed.

Lemma SFleb_trans x y z :
  SFleb x y = true -> SFleb y z = true -> SFleb x z = true.
Proof.
unfold SFleb.
destruct x as [sx|sx| |sx mx ex], y as [sy|sy| |sy my ey],
  z as [sz|sz| |sz mz ez]; cbn [SFcompare]; try discriminate;
  try reflexivity;
  repeat match goal with s : bool |- _ => destruct s end;
  try discriminate; try reflexivity.
all: change (PosDef.Pos.compare_cont Eq) with Pos.compare.
all: repeat match goal with
     | |- context [(?a ?= ?b)%Z] => destruct (Z.compare_spec a b)
     | |- context [(?a ?= ?b)%positive] => destruct (Pos.compare_spec a b)
     end; cbn [CompOpp]; try discriminate; try reflexivity; intros; lia.
Qed.

End CompareFacts.

Section FloatCompare.

Local Open Scope float_scope.

Implicit Types (x y z : float).

Lemma sub_nan_l x : nan - x = nan.
Proof. by apply: Prim2SF_inj; rewrite sub_spec. Qed.

Lemma add_nan_l x : nan + x = nan.
Proof. by apply: Prim2SF_inj; rewrite add_spec. Qed.

Lemma ltb_not_leb x y : (x <? y) = true -> (y <=? x) = false.
Proof. by rewrite ltb_spec leb_spec; apply: SFltb_not_leb. Qed.

Lemma ltb_negb_leb x y :
  is_nan x = false -> is_nan y = false -> (x <? y) = ~~ (y <=? x).
Proof.
move=> /is_nan_Prim2SF nx /is_nan_Prim2SF ny.
by rewrite ltb_spec leb_spec; apply: SFltb_negb_leb.
Qed.

Lemma eqb_ltb_l x y z : (x =? y) = true -> (x <? z) = (y <? z).
Proof.
by rewrite eqb_spec !ltb_spec /SFltb => /SFeqb_compare_l ->.
Qed.

Lemma eqb_ltb_r x y z : (x =? y) = true -> (z <? x) = (z <? y).
Proof.
by rewrite eqb_spec !ltb_spec /SFltb => /SFeqb_compare_r ->.
Qed.

Lemma leb_trans x y z :
  (x <=? y) = true -> (y <=? z) = true -> (x <=? z) = true.
Proof. by rewrite !leb_spec; apply: SFleb_trans. Qed.

Lemma leb_not_nan x y :
  (x <=? y) = true -> is_nan x = false /\ is_nan y = false.
Proof.
move=> xy; split; apply/negbTE/negP => /is_nan_eq E; move: xy.
- by rewrite E leb_nan_l.
- by rewrite E leb_nan_r.
Qed.

Lemma sub_not_nan x y :
  is_nan (x - y) = false -> is_nan x = false /\ is_nan y = false.
Proof.
move=> xy; split; apply/negbTE/negP => /is_nan_eq E; move: xy.
- by rewrite E sub_nan_l.
- by rewrite E sub_nan_r.
Qed.

Lemma mul_not_nan_r x y : is_nan (x * y) = false -> is_nan y = false.
Proof.
by move=> xy; apply/negbTE/negP => /is_nan_eq E; move: xy; rewrite E mul_nan_r.
Qed.

End FloatCompare.

(** * Further properties of the classification *)

Section ClassifierExtras.

Local Open Scope float_scope.

Implicit Types (df : dataframe) (c s : string) (cs : seq Stats.row).
Implicit Types (month : Z) (temp : float) (b : Stats.row) (i : nat).

Lemma check_temperature_normality_inv month temp cs (v : bool) (m sd : float) :
  check_temperature_normality month temp cs = Ok (v, m, sd) ->
  exists b,
    [/\ baseline cs (get_current_season month) = Some b,
        Stats.mean b = m, Stats.std b = sd &
        v = (m - 2 * sd <=? temp) && (temp <=? m + 2 * sd)].
Proof.
rewrite /check_temperature_normality /baseline.
case: (select_season _ _) => [|b l] //= [<- <- <-].
by exists b.
Qed.

(** Whatever the month, the season is one of the four labels.  *)
Lemma get_current_season_label (month : Z) :
  get_current_season month \in
  [:: "winter"; "spring"; "summer"; "fall"]%string.
Proof.
rewrite /get_current_season.
by do 3 (case: ifP => // _).
Qed.

(** X6: a verdict "normal" is only given on numbers: the temperature, the
    mean and the standard deviation of the baseline are not NaN, and the
    interval is not empty. *)
Theorem normal_verdict_on_numbers month temp cs (m sd : float) :
  check_temperature_normality month temp cs = Ok (true, m, sd) ->
  [/\ is_nan temp = false, is_nan m = false, is_nan sd = false &
      (m - 2 * sd <=? m + 2 * sd) = true].
Proof.
case/check_temperature_normality_inv => b [_ _ _ /esym/andP[lo up]].
have [nlo nt] := leb_not_nan lo.
have [nm /mul_not_nan_r nsd] := sub_not_nan nlo.
by split=> //; apply: leb_trans lo up.
Qed.

Lemma normal_verdict_on_numbers_witness :
  let cs := [:: Stats.Row "winter" 0 3] in
  check_temperature_normality 1 5 cs = Ok (true, 0, 3) /\
  [/\ is_nan 5 = false, is_nan 0 = false, is_nan 3 = false &
      (0 - 2 * 3 <=? 0 + 2 * 3) = true].
Proof.
split; first by vm_compute.
by apply: (@normal_verdict_on_numbers 1 5 [:: Stats.Row "winter" 0 3]);
   vm_compute.
Defined.

(** X7: the normal temperatures of a season form an interval: a reading
    between two readings that are classified normal is classified normal
    too. *)
Theorem normal_range_convex month cs (t1 t2 temp m sd : float) :
  check_temperature_normality month t1 cs = Ok (true, m, sd) ->
  check_temperature_normality month t2 cs = Ok (true, m, sd) ->
  (t1 <=? temp) = true -> (temp <=? t2) = true ->
  check_temperature_normality month temp cs = Ok (true, m, sd).
Proof.
case/check_temperature_normality_inv => b [bb <- <- /esym/andP[lo1 _]].
case/check_temperature_normality_inv => b' [_ _ _ /esym/andP[_ up2]] t1t tt2.
rewrite (check_temperature_normality_baseline _ bb).
by rewrite (leb_trans lo1 t1t) (leb_trans tt2 up2).
Qed.

Lemma normal_range_convex_witness :
  let cs := [:: Stats.Row "winter" 0 3] in
  [/\ check_temperature_normality 1 (-6) cs = Ok (true, 0, 3),
      check_temperature_normality 1 6 cs = Ok (true, 0, 3),
      ((-6) <=? 1.5) = true, (1.5 <=? 6) = true &
      check_temperature_normality 1 1.5 cs = Ok (true, 0, 3)].
Proof.
split; [by vm_compute | by vm_compute | by vm_compute | by vm_compute |].
by apply: (@normal_range_convex 1 [:: Stats.Row "winter" 0 3] (-6) 6);
   vm_compute.
Defined.

(** X8: the live classification only knows the four lowercase labels.  On
    a dataset that labels its seasons otherwise, it finds no baseline and
    raises, for every city, month and temperature. *)
Theorem foreign_season_labels df c month temp :
  all (fun r => season r \notin
                [:: "winter"; "spring"; "summer"; "fall"]%string) df ->
  check_temperature_normality month temp (city_stats df c) = Raise IndexError.
Proof.
move=> foreign; apply: check_temperature_normality_no_baseline.
rewrite /baseline /city_stats select_season_absent //.
rewrite -has_season_mem has_season_city_data -all_predC.
apply: sub_all foreign => r nr /=; apply/negP => /andP[_ /eqP E].
by move: nr; rewrite E get_current_season_label.
Qed.

Lemma foreign_season_labels_witness :
  let df := [:: Observation "Berlin" 1 20 "Summer";
                Observation "Berlin" 2 (-1) "Winter"] in
  all (fun r => season r \notin
                [:: "winter"; "spring"; "summer"; "fall"]%string) df /\
  check_temperature_normality 7 21 (city_stats df "Berlin") = Raise IndexError.
Proof.
split; first by vm_compute.
by apply: foreign_season_labels; vm_compute.
Defined.

(** X9: the chart and the live classification agree on numbers.  Take a
    row of the city's data whose season is the current one and submit its
    temperature as the live reading.  If the row is flagged on the chart,
    the reading is classified as not normal; and when the temperature and
    the two bounds are numbers, the reading is normal exactly when the row
    is not flagged. *)
Theorem chart_and_live_agree df c month r0 i :
  (i < size (city_data df c))%N ->
  let r := nth r0 (city_data df c) i in
  season r = get_current_season month ->
  exists b : Stats.row,
    [/\ baseline (city_stats df c) (get_current_season month) = Some b,
        nth false (anomalies df c) i ->
        check_temperature_normality month (temperature r) (city_stats df c) =
        Ok (false, Stats.mean b, Stats.std b) &
        is_nan (temperature r) = false ->
        is_nan (Stats.mean b - 2 * Stats.std b) = false ->
        is_nan (Stats.mean b + 2 * Stats.std b) = false ->
        check_temperature_normality month (temperature r) (city_stats df c) =
        Ok (~~ nth false (anomalies df c) i, Stats.mean b, Stats.std b)].
Proof.
move=> id r sr.
have bb := baseline_groupby_agg (season_nth_mem r0 id).
rewrite -/r sr in bb; eexists; split; first exact: bb.
- rewrite (check_temperature_normality_baseline _ bb) /=.
  rewrite (@nth_anomalies _ _ r0) // -/r /flagged sr.
  by case/orP => /ltb_not_leb ->; rewrite ?andbF.
- rewrite (check_temperature_normality_baseline _ bb) /=.
  rewrite (@nth_anomalies _ _ r0) // -/r /flagged sr => nt nlo nhi.
  by rewrite !ltb_negb_leb // -negb_and negbK.
Qed.

Lemma chart_and_live_agree_witness :
  (0 < size (city_data example_df "Berlin"))%N /\
  season (nth no_observation (city_data example_df "Berlin") 0) =
  get_current_season 7 /\
  exists b : Stats.row,
    [/\ baseline (city_stats example_df "Berlin") (get_current_season 7) =
        Some b,
        nth false (anomalies example_df "Berlin") 0 ->
        check_temperature_normality 7
          (temperature (nth no_observation (city_data example_df "Berlin") 0))
          (city_stats example_df "Berlin") =
        Ok (false, Stats.mean b, Stats.std b) &
        is_nan (temperature (nth no_observation
                               (city_data example_df "Berlin") 0)) = false ->
        is_nan (Stats.mean b - 2 * Stats.std b) = false ->
        is_nan (Stats.mean b + 2 * Stats.std b) = false ->
        check_temperature_normality 7
          (temperature (nth no_observation (city_data example_df "Berlin") 0))
          (city_stats example_df "Berlin") =
        Ok (~~ nth false (anomalies example_df "Berlin") 0,
            Stats.mean b, Stats.std b)].
Proof.
split; first by vm_compute.
split; first by vm_compute.
by apply: (@chart_and_live_agree example_df "Berlin" 7 no_observation 0);
   vm_compute.
Defined.

End ClassifierExtras.

(** * The interval around the mean *)

Unset Implicit Arguments.

Section AroundTheMean.

Local Open Scope Z_scope.

Lemma shl_align_value (m : positive) (e e' : Z) :
  e' <= e -> Z.pos (fst (shl_align m e e')) = Z.pos m * 2 ^ (e - e').
Proof.
intros H. unfold shl_align.
destruct (e' - e) as [|p|p] eqn:E; cbn [fst]; try lia.
- replace (e - e') with 0 by lia. lia.
- rewrite iter_xO. f_equal. f_equal. lia.
Qed.

(** Rounding the mantissa of a binary64 number, shifted to a lower
    exponent, gives the number back. *)
Lemma round_key_valid (m : positive) (e k : Z) :
  bounded prec emax m e = true -> 0 <= k ->
  round_key (Z.to_pos (Z.pos m * 2 ^ k)) (e - k) = Some (e, m).
Proof.
intros B Hk. unfold bounded, canonical_mantissa in B.
apply Bool.andb_true_iff in B. destruct B as [C B].
apply Z.eqb_eq in C. apply Z.leb_le in B. rewrite fexp_eq in C.
assert (P : 0 < 2 ^ k) by (apply Z.pow_pos_nonneg; lia).
unfold round_key. rewrite fexp_eq.
destruct (Z.eq_dec k 0) as [->|K].
- rewrite Z.mul_1_r. cbn [Z.to_pos]. replace (e - 0) with e by lia.
  replace (Z.max (Z.pos (digits2_pos m) + e - 53) (-1074)) with e by lia.
  rewrite Z.leb_refl. rewrite Z.sub_diag Z.mul_1_r. reflexivity.
- assert (S : Z.to_pos (Z.pos m * 2 ^ k) = Pos.iter xO m (Z.to_pos k)).
  { apply Pos2Z.inj. rewrite iter_xO. rewrite -> !Z2Pos.id by lia. reflexivity. }
  rewrite S. rewrite digits2_pos_iter_xO. rewrite iter_xO.
  rewrite -> !Z2Pos.id by lia.
  replace (Z.max (Z.pos (digits2_pos m) + k + (e - k) - 53) (-1074)) with e by lia.
  replace (e <=? e - k) with false by (symmetry; apply Z.leb_gt; lia).
  replace (e - (e - k)) with k by lia.
  assert (R : rne (Z.pos m * 2 ^ k) k = Z.pos m).
  { unfold rne.
    assert (P1 : 0 < 2 ^ (k - 1)) by (apply Z.pow_pos_nonneg; lia).
    assert (E2 : 2 ^ k = 2 * 2 ^ (k - 1)).
    { rewrite <- Z.pow_succ_r by lia. f_equal. lia. }
    assert (H : Z.pos m * 2 ^ k / 2 ^ (k - 1) = 2 * Z.pos m).
    { rewrite E2. replace (Z.pos m * (2 * 2 ^ (k - 1))) with (2 * Z.pos m * 2 ^ (k - 1)) by lia.
      apply Z.div_mul. lia. }
    rewrite H. rewrite Z.odd_mul. cbn [Z.odd andb].
    rewrite Z.mul_comm. apply Z.div_mul. lia. }
  rewrite R. unfold carry_key.
  assert (D := digits2_pos_bounds m).
  assert (Z.pos m < 2 ^ 53).
  { assert (2 ^ Z.pos (digits2_pos m) <= 2 ^ 53) by (apply Z.pow_le_mono_r; lia). lia. }
  destruct (Z.eqb_spec (Z.pos m) 0); [lia|].
  destruct (Z.eqb_spec (Z.pos m) (2 ^ 53)); [lia|]. reflexivity.
Qed.

Lemma binary_normalize_valid (s : bool) (m : positive) (e e' : Z) :
  bounded prec emax m e = true -> e' <= e ->
  binary_normalize prec emax (cond_Zopp s (Z.pos (fst (shl_align m e e')))) e' false
  = S754_finite s m e.
Proof.
intros B H.
assert (V : Z.pos (fst (shl_align m e e')) = Z.pos m * 2 ^ (e - e')) by (apply shl_align_value; exact H).
assert (K := round_key_valid m e (e - e') B ltac:(lia)).
replace (e - (e - e')) with e' in K by lia.
rewrite <- V in K. rewrite Pos2Z.id in K.
assert (F : fin_or_inf s m e = S754_finite s m e).
{ unfold fin_or_inf. unfold bounded in B. apply Bool.andb_true_iff in B.
  destruct B as [_ B]. rewrite B. reflexivity. }
destruct s; cbn [cond_Zopp Z.opp binary_normalize];
  rewrite binary_round_key K; exact F.
Qed.

(** A number lies between itself minus and itself plus a non-negative
    deviation. *)
Lemma SFsub_le_self (x d : spec_float) :
  valid_binary x = true -> nonneg d = true -> SF64sub x d <> S754_nan ->
  SFleb (SF64sub x d) x = true.
Proof.
intros V N.
destruct x as [sx|sx| |sx mx ex], d as [sd|[|]| |[|] md ed]; try discriminate;
  cbn [SF64sub SFsub]; intros NN;
  try solve [ apply SFleb_refl; discriminate
            | repeat match goal with s : bool |- _ => destruct s end;
              first [reflexivity | exfalso; apply NN; reflexivity] ].
cbn [valid_binary] in V.
rewrite <- (binary_normalize_valid sx mx ex (Z.min ex ed) V ltac:(lia)) at 1.
apply binary_normalize_mono. destruct sx; cbn [cond_Zopp]; lia.
Qed.

Lemma SFadd_ge_self (x d : spec_float) :
  valid_binary x = true -> nonneg d = true -> SF64add x d <> S754_nan ->
  SFleb x (SF64add x d) = true.
Proof.
intros V N.
destruct x as [sx|sx| |sx mx ex], d as [sd|[|]| |[|] md ed]; try discriminate;
  cbn [SF64add SFadd]; intros NN;
  try solve [ apply SFleb_refl; discriminate
            | repeat match goal with s : bool |- _ => destruct s end;
              first [reflexivity | exfalso; apply NN; reflexivity] ].
cbn [valid_binary] in V.
rewrite <- (binary_normalize_valid sx mx ex (Z.min ex ed) V ltac:(lia)) at 1.
apply binary_normalize_mono. destruct sx; cbn [cond_Zopp]; lia.
Qed.

End AroundTheMean.

Set Implicit Arguments.

Section SqrtSign.

Lemma SFsqrt_nonneg (y : spec_float) :
  SF64sqrt y = S754_nan \/ nonneg (SF64sqrt y).
Proof.
case: y => [s|[]||[] m e] /=; try by [left | right].
rewrite /SF64sqrt /SFsqrt; case: (SFsqrt_core_binary _ _ _ _) => [[mz ez] lz].
exact: binary_round_aux_nonneg.
Qed.

Lemma nonneg_SFleb (y : spec_float) : nonneg y -> SFleb (S754_zero false) y = true.
Proof. by case: y => [s|[]||[] m e]. Qed.

End SqrtSign.

Section MeanInside.

Local Open Scope float_scope.

Implicit Types (df : dataframe) (c s : string) (cs : seq Stats.row).
Implicit Types (month : Z) (temp x d : float) (b : Stats.row) (i : nat).

Lemma sqrt_nonneg x : is_nan (sqrt x) = false -> (0 <=? sqrt x) = true.
Proof.
move=> /is_nan_Prim2SF; rewrite leb_spec sqrt_spec.
by case: (SFsqrt_nonneg (Prim2SF x)) => [-> //|/nonneg_SFleb].
Qed.

Lemma series_std_nonneg (v : series) :
  is_nan (series_std v) = false -> (0 <=? series_std v) = true.
Proof.
rewrite /series_std; case: (_ <= 1)%N => //.
exact: sqrt_nonneg.
Qed.

Lemma baseline_groupby_agg_inv (d : dataframe) s b :
  baseline (groupby_agg d) s = Some b ->
  b = Stats.Row s (series_mean (group_temperature d s))
                  (series_std (group_temperature d s)).
Proof.
case sd: (s \in [seq season r | r <- d]).
- by rewrite baseline_groupby_agg // => -[].
- by rewrite /baseline select_season_absent ?sd.
Qed.

Lemma sub_le_self x d :
  nonneg (Prim2SF d) -> is_nan (x - d) = false -> (x - d <=? x) = true.
Proof.
move=> d0 /is_nan_Prim2SF; rewrite leb_spec sub_spec.
exact: SFsub_le_self (Prim2SF_valid x) d0.
Qed.

Lemma add_ge_self x d :
  nonneg (Prim2SF d) -> is_nan (x + d) = false -> (x <=? x + d) = true.
Proof.
move=> d0 /is_nan_Prim2SF; rewrite leb_spec add_spec.
exact: SFadd_ge_self (Prim2SF_valid x) d0.
Qed.

(** X10: a reading equal to the seasonal mean is normal, for every
    baseline with a finite mean and a standard deviation that is a
    non-negative number. *)
Theorem mean_is_normal month cs b :
  baseline cs (get_current_season month) = Some b ->
  is_finite (Stats.mean b) -> (0 <=? Stats.std b) = true ->
  check_temperature_normality month (Stats.mean b) cs =
  Ok (true, Stats.mean b, Stats.std b).
Proof.
move=> /check_temperature_normality_baseline -> fin_mean sd0.
have [lo up] := two_sigma_bounds_not_nan fin_mean sd0.
have d0 := Prim2SF_double_nonneg sd0.
by rewrite sub_le_self // add_ge_self.
Qed.

Lemma mean_is_normal_witness :
  let b := Stats.Row "winter" 0.5 1.25 in
  let cs := [:: b] in
  [/\ baseline cs (get_current_season 1) = Some b,
      is_finite (Stats.mean b), (0 <=? Stats.std b) = true &
      check_temperature_normality 1 (Stats.mean b) cs =
      Ok (true, Stats.mean b, Stats.std b)].
Proof.
split; [by vm_compute | by vm_compute | by vm_compute |].
by apply: mean_is_normal; vm_compute.
Defined.

Lemma baseline_std_sign (d : dataframe) s b :
  baseline (groupby_agg d) s = Some b ->
  is_nan (Stats.std b) = false -> (0 <=? Stats.std b) = true.
Proof. by move=> /baseline_groupby_agg_inv -> /=; apply: series_std_nonneg. Qed.

(** X12: a row whose temperature equals the mean of its season (as floats
    compare, so that [-0.0] equals [0.0]) is never flagged on the chart. *)
Theorem anomalies_at_mean df c r0 i :
  (i < size (city_data df c))%N ->
  (temperature (nth r0 (city_data df c) i) =? nth 0 (transform_mean df c) i)
  = true ->
  nth true (anomalies df c) i = false.
Proof.
move=> id; rewrite /transform_mean (nth_groupby_transform _ r0) // => tm.
rewrite (@nth_anomalies _ _ r0) // /flagged.
rewrite (eqb_ltb_l _ tm) (eqb_ltb_r _ tm).
set m := series_mean _; set sd := series_std _.
case nsd: (is_nan sd); first by rewrite (is_nan_eq nsd) mul_nan_r sub_nan_r add_nan_r ltb_nan_r ltb_nan_l.
have d0 := Prim2SF_double_nonneg (series_std_nonneg nsd).
have -> : (m <? m - 2 * sd) = false.
  case nlo: (is_nan (m - 2 * sd)); first by rewrite (is_nan_eq nlo) ltb_nan_r.
  by apply/negbTE/negP => /ltb_not_leb; rewrite sub_le_self.
case nhi: (is_nan (m + 2 * sd)); first by rewrite (is_nan_eq nhi) ltb_nan_l.
by apply/negbTE/negP => /ltb_not_leb; rewrite add_ge_self.
Qed.

(** Three winter days in Oslo, [-1.0], [-0.0] and [1.0]: the mean is [0.0],
    the standard deviation is [1.0], and the middle row, at the mean up to
    the sign of zero, is inside the interval [[-2, 2]]. *)
Lemma anomalies_at_mean_witness :
  let df := [:: Observation "Oslo" 1 (-1) "winter";
                Observation "Oslo" 2 neg_zero "winter";
                Observation "Oslo" 3 1 "winter"] in
  [/\ (1 < size (city_data df "Oslo"))%N,
      (temperature (nth no_observation (city_data df "Oslo") 1) =?
       nth 0 (transform_mean df "Oslo") 1) = true,
      nth 0 (transform_mean df "Oslo") 1 = 0 /\
      nth 0 (transform_std df "Oslo") 1 = 1 &
      nth true (anomalies df "Oslo") 1 = false].
Proof.
split; [by vm_compute | by vm_compute | by vm_compute |].
by apply: (@anomalies_at_mean _ "Oslo" no_observation 1); vm_compute.
Defined.

(** X13: on the baselines that the pipeline computes, the closed interval
    needs no assumption on the standard deviation beyond being a number:
    with a finite mean, a reading equal to the lower bound, to the mean or
    to the upper bound is classified normal. *)
Theorem computed_interval_closed df c month temp b :
  baseline (city_stats df c) (get_current_season month) = Some b ->
  is_finite (Stats.mean b) -> is_nan (Stats.std b) = false ->
  [|| temp =? Stats.mean b - 2 * Stats.std b, temp =? Stats.mean b |
      temp =? Stats.mean b + 2 * Stats.std b] ->
  check_temperature_normality month temp (city_stats df c) =
  Ok (true, Stats.mean b, Stats.std b).
Proof.
move=> bb fin_mean nsd.
have sd0 := baseline_std_sign bb nsd.
have [lo up] := two_sigma_bounds_not_nan fin_mean sd0.
have ord := two_sigma_bounds_ordered sd0 lo up.
have d0 := Prim2SF_double_nonneg sd0.
rewrite (check_temperature_normality_baseline _ bb).
case/or3P => E.
- by rewrite (eqb_leb_refl E) (eqb_leb_l _ E) ord.
- by rewrite (eqb_leb_r _ E) (eqb_leb_l _ E) sub_le_self // add_ge_self.
- by rewrite (eqb_leb_r _ E) ord (eqb_leb E).
Qed.

Lemma computed_interval_closed_witness :
  let b := Stats.Row "summer" 27.5 0x1.e2d6086c80cbp+3 in
  [/\ baseline (city_stats example_df "Berlin") (get_current_season 7) =
      Some b,
      is_finite (Stats.mean b), is_nan (Stats.std b) = false,
      [|| 27.5 =? Stats.mean b - 2 * Stats.std b, 27.5 =? Stats.mean b |
          27.5 =? Stats.mean b + 2 * Stats.std b] &
      check_temperature_normality 7 27.5 (city_stats example_df "Berlin") =
      Ok (true, Stats.mean b, Stats.std b)].
Proof.
split; [by vm_compute | by vm_compute | by vm_compute | by vm_compute |].
by apply: computed_interval_closed; vm_compute.
Defined.

End MeanInside.

(** * The live section *)

Section LiveSection.

Local Open Scope float_scope.

Implicit Types (df : dataframe) (c key : string) (call : fetched).
Implicit Types (month : Z) (t et : float).

Lemma baseline_city_stats df c s :
  baseline (city_stats df c) s =
  if has (fun r => (city r == c) && (season r == s)) df
  then Some (Stats.Row s (series_mean (season_temperatures df c s))
                         (series_std (season_temperatures df c s)))
  else None.
Proof.
rewrite -has_season_city_data has_season_mem /city_stats.
case: ifP => [sd|/negbT sd].
- by rewrite baseline_groupby_agg // group_temperature_city_data.
- by rewrite /baseline select_season_absent.
Qed.

(** X14: a reading without history.  When the city has no observation in
    the current season, the section shows the reading and the time of the
    call, and then the error of the failed lookup; it states no verdict. *)
Theorem live_section_missing_season df c key call_time month t :
  key <> EmptyString ->
  ~~ has (fun r => (city r == c) && (season r == get_current_season month)) df ->
  live_section key (Fetch_temp t) call_time c month (city_stats df c) =
  [:: Write_temperature c t; Write_call_time call_time;
      Error_fetching (From_check IndexError)].
Proof.
case: key => // a key _ /negbTE nohist.
rewrite /live_section check_temperature_normality_no_baseline //.
by rewrite baseline_city_stats nohist.
Qed.

Lemma live_section_missing_season_witness :
  "k"%string <> EmptyString /\
  ~~ has (fun r => (city r == "Berlin"%string) &&
                   (season r == get_current_season 4)) example_df /\
  live_section "k" (Fetch_temp 12) 0.5 "Berlin" 4
    (city_stats example_df "Berlin") =
  [:: Write_temperature "Berlin" 12; Write_call_time 0.5;
      Error_fetching (From_check IndexError)].
Proof.
split; first by [].
split; first by vm_compute.
by apply: live_section_missing_season; vm_compute.
Defined.

(** X15: a verdict is stated exactly when an API key was entered, the
    weather call returned a temperature and the city has at least one
    observation in the current season; and the section never states a
    verdict next to an error. *)
Theorem live_section_verdict df c key call call_time month :
  let out := live_section key call call_time c month (city_stats df c) in
  has is_status out =
  [&& key != EmptyString, (if call is Fetch_temp _ then true else false) &
      has (fun r => (city r == c) && (season r == get_current_season month)) df]
  /\ ~~ (has is_status out && has is_error out).
Proof.
rewrite /= /live_section; case: key => [|a key] //=.
case: call => [||t] //=.
rewrite /check_temperature_normality -/(baseline _ _).
have := baseline_city_stats df c (get_current_season month).
rewrite /baseline.
by case: (has _ df); case: (select_season _ _) => [|b l].
Qed.

End LiveSection.
